(** * Jazz browser adapters and the cojson crypto envelope

    A shallow embedding of the browser-side adapters of the Jazz
    collaboration engine (reconnection loop, WebSocket peer streams,
    invite links, session locks, blob ingestion, passphrase
    authentication) together with the contracts of the cojson crypto
    envelope they rely on.

    Part I holds the models, one module per source unit; Part II holds
    the properties proved about them. *)

From Stdlib Require Import ZArith Ascii String List Permutation Sorted Lia.
From stdpp Require Import base tactics option list sorting gmap strings pretty.

Local Open Scope Z_scope.
Set Warnings "-register-all".

(* ===================================================================== *)
(** * Part I: models                                                      *)
(* ===================================================================== *)

(** ** JavaScript runtime conventions *)

Module JS.

(** A call either returns a value or throws; the payload of [Throws]
    is the error message. *)
Inductive outcome (A : Type) : Type :=
| Ok (a : A)
| Throws (msg : string).
Arguments Ok {A} a.
Arguments Throws {A} msg.

(** Truthiness of a string-valued property that may be absent:
    [undefined] and the empty string are falsy. *)
Definition truthy (v : option string) : bool :=
  match v with
  | Some (String _ _) => true
  | _ => false
  end.

(** [a || b] on such a property. *)
Definition or_else (v : option string) (d : string) : string :=
  match v with
  | Some (String c s) => String c s
  | _ => d
  end.

End JS.

(** ** The reconnection loop of [createBrowserNode]

    Timeouts are JavaScript numbers holding millisecond counts; they are
    modelled as integers. *)

Module Reconnect.

Record state := mkState {
  initialReconnectionTimeout : Z;
  currentReconnectionTimeout : Z;
  shouldTryToReconnect : bool;
  (** delays handed to [setTimeout] before a reconnection attempt,
      oldest first *)
  reconnectWaits : list Z;
  (** number of [addPeer(createWebSocketPeer(..))] calls of the loop *)
  peersAdded : nat
}.

(** What the environment can do to the loop: the browser reports that
    the network is back, the loop body runs once (finding the sync peer
    connected or not), or the handle's [done] is called. *)
Inductive event :=
| Online
| Iteration (connected : bool)
| Done.

(** [reconnectionTimeout: initialReconnectionTimeout = 500] *)
Definition createBrowserNode (reconnectionTimeout : option Z) : state :=
  let initial := default 500 reconnectionTimeout in
  {| initialReconnectionTimeout := initial;
     currentReconnectionTimeout := initial;
     shouldTryToReconnect := true;
     reconnectWaits := [];
     peersAdded := 0 |}.

Definition onOnline (s : state) : state :=
  {| initialReconnectionTimeout := initialReconnectionTimeout s;
     currentReconnectionTimeout := initialReconnectionTimeout s;
     shouldTryToReconnect := shouldTryToReconnect s;
     reconnectWaits := reconnectWaits s;
     peersAdded := peersAdded s |}.

(** The delay computed in the [else] branch of the loop body. *)
Definition nextTimeout (current : Z) : Z := Z.min (current * 2) 30000.

(** One pass through the body of [while (shouldTryToReconnect)]. *)
Definition loopBody (connected : bool) (s : state) : state :=
  if negb (shouldTryToReconnect s) then s
  else if connected then s (* sleeps 100 ms, changes nothing *)
  else
    let t := nextTimeout (currentReconnectionTimeout s) in
    {| initialReconnectionTimeout := initialReconnectionTimeout s;
       currentReconnectionTimeout := t;
       shouldTryToReconnect := true;
       reconnectWaits := reconnectWaits s ++ [t];
       peersAdded := S (peersAdded s) |}.

(** [done]: [shouldTryToReconnect = false] and
    [window.removeEventListener("online", onOnline)]. *)
Definition done (s : state) : state :=
  {| initialReconnectionTimeout := initialReconnectionTimeout s;
     currentReconnectionTimeout := currentReconnectionTimeout s;
     shouldTryToReconnect := false;
     reconnectWaits := reconnectWaits s;
     peersAdded := peersAdded s |}.

(** [onOnline] is registered on the window before the loop starts and
    stays so until [done] takes it off again, which is also where
    [shouldTryToReconnect] becomes false: from then on an [online] event
    runs no code of the node. *)
Definition step (s : state) (e : event) : state :=
  match e with
  | Online => if shouldTryToReconnect s then onOnline s else s
  | Iteration connected => loopBody connected s
  | Done => done s
  end.

Definition run (s : state) (es : list event) : state := fold_left step es s.

(** [n] consecutive passes that find the peer disconnected. *)
Definition failures (n : nat) : list event := repeat (Iteration false) n.

(** What [n] failed attempts in a row should wait, starting from the
    current timeout [c]: [c] doubled once more each time, capped. *)
Definition backoff (c : Z) (n : nat) : list Z :=
  map (λ k : nat, Z.min (c * 2 ^ Z.of_nat (S k)) 30000) (seq 0 n).

End Reconnect.

(** ** Session establishment ([getSessionHandleFor]) *)

Module Session.

(** Modelled from the spec: [cojsonInternals.newRandomSessionID] lives
    in the cojson core; a session ID is [<agentID>_session_<nonce>],
    the nonce being the random draw. *)
Definition newRandomSessionID (accountID nonce : string) : string :=
  accountID +:+ "_session_" +:+ nonce.

(** [accountID + "_" + idx] *)
Definition slotKey (accountID : string) (idx : nat) : string :=
  accountID +:+ "_" +:+ pretty idx.

Record result := mkResult {
  (** names passed to [navigator.locks.request], oldest first *)
  requested : list string;
  (** the slot whose lock is held, once one was granted *)
  heldSlot : option nat;
  (** argument of [resolveSession], if it was called *)
  session : option string;
  (** [localStorage] afterwards *)
  storage : gmap string string;
  (** error thrown by the loop, if any *)
  thrown : option string
}.

(** The callback passed to [navigator.locks.request] once it is given a
    lock: returns the session ID and the updated storage. *)
Definition withLock (accountID nonce : string) (idx : nat)
    (ls : gmap string string) : string * gmap string string :=
  let key := slotKey accountID idx in
  let sessionID := JS.or_else (ls !! key) (newRandomSessionID accountID nonce) in
  (sessionID, <[key := sessionID]> ls).

Section Loop.
(** [available idx retry]: whether the lock manager grants the lock
    at the [retry]-th request for slot [idx] ([ifAvailable: true]
    never waits). *)
Variable available : nat → nat → bool.
Variables accountID nonce : string.
Variable ls : gmap string string.

(** [for (let retry = ..; retry < 2; retry++)], with [n] passes left;
    [Some r] means the body hit [return]. *)
Fixpoint retryLoop (n retry idx : nat) (reqs : list string)
    : list string * option result :=
  match n with
  | O => (reqs, None)
  | S n' =>
      let reqs' := reqs ++ [slotKey accountID idx] in
      if available idx retry then
        let '(sid, ls') := withLock accountID nonce idx ls in
        (reqs', Some {| requested := reqs'; heldSlot := Some idx;
                        session := Some sid; storage := ls';
                        thrown := None |})
      else retryLoop n' (S retry) idx reqs'
  end.

(** [for (let idx = ..; idx < 100; idx++)], with [n] passes left. *)
Fixpoint slotLoop (n idx : nat) (reqs : list string) : result :=
  match n with
  | O => {| requested := reqs; heldSlot := None; session := None;
            storage := ls;
            thrown := Some "Couldn't get lock on session after 100x2 tries" |}
  | S n' =>
      match retryLoop 2 0 idx reqs with
      | (_, Some r) => r
      | (reqs', None) => slotLoop n' (S idx) reqs'
      end
  end.

Definition getSessionHandleFor : result := slotLoop 100 0 [].
End Loop.

(** Both requests the loop can make for one slot. *)
Definition twice (accountID : string) (idx : nat) : list string :=
  [slotKey accountID idx; slotKey accountID idx].

(** The lock names in the order the loop can ask for them. *)
Definition allRequests (accountID : string) : list string :=
  flat_map (twice accountID) (seq 0 100).

(** What the loop should leave behind when slot [idx] is granted after
    the requests [reqs]: the stored session ID of the slot if there is
    one, a fresh one otherwise, kept in the slot. *)
Definition granted (accountID nonce : string) (ls : gmap string string)
    (idx : nat) (reqs : list string) : result :=
  let sid := match ls !! slotKey accountID idx with
             | Some (String c s) => String c s
             | _ => newRandomSessionID accountID nonce
             end in
  {| requested := reqs; heldSlot := Some idx; session := Some sid;
     storage := <[slotKey accountID idx := sid]> ls; thrown := None |}.

(** Attempt [(j, q)] comes before attempt [(i, r)]. *)
Definition before (j q i r : nat) : Prop :=
  (j < i)%nat ∨ (j = i ∧ (q < r)%nat).

End Session.

(** ** Blob ingestion ([createBinaryStreamFromBlob]) *)

Module BinaryStream.

(** Modelled from the spec: the constant is exported by the cojson
    core; the spec gives it as about 100 KiB. *)
Definition MAX_RECOMMENDED_TX_SIZE : nat := 100 * 1024.

Record Blob := mkBlob {
  (** [blob.type] *)
  blobType : string;
  (** bytes delivered by [FileReader.readAsArrayBuffer] *)
  blobData : list Byte.byte;
  (** [Some name] when the blob is a [File] *)
  fileName : option string
}.

(** [blob.size] *)
Definition blobSize (b : Blob) : nat := length (blobData b).

Record StartMeta := mkStart {
  mimeType : string;
  totalSizeBytes : nat;
  startFileName : option string
}.

(** Calls made on the binary stream, in order. *)
Inductive call :=
| startBinaryStream (m : StartMeta)
| pushBinaryStreamChunk (chunk : list Byte.byte)
| endBinaryStream.

(** [data.slice(from, to)] on a [Uint8Array], for [from <= to]. *)
Definition slice (data : list Byte.byte) (from to : nat) : list Byte.byte :=
  take (to - from) (drop from data).

(** [for (let idx = ..; idx < data.length; idx += chunkSize)]; [fuel]
    bounds the number of passes. *)
Fixpoint chunkLoop (fuel : nat) (chunkSize : nat) (data : list Byte.byte)
    (idx : nat) : option (list call) :=
  if decide (idx < length data)%nat then
    match fuel with
    | O => None
    | S fuel' =>
        cs ← chunkLoop fuel' chunkSize data (idx + chunkSize);
        Some (pushBinaryStreamChunk (slice data idx (idx + chunkSize)) :: cs)
    end
  else Some [].

Definition onload (fuel : nat) (blob : Blob) : option (list call) :=
  let data := blobData blob in
  cs ← chunkLoop fuel MAX_RECOMMENDED_TX_SIZE data 0;
  Some (startBinaryStream {| mimeType := blobType blob;
                             totalSizeBytes := blobSize blob;
                             startFileName := fileName blob |}
        :: cs ++ [endBinaryStream]).

(** The whole call, run with enough passes for the blob at hand. *)
Definition createBinaryStreamFromBlob (blob : Blob) : option (list call) :=
  onload (blobSize blob) blob.

End BinaryStream.

(** ** JSON values *)

Module JSON.

(** Objects keep their properties in insertion order. Numbers are kept
    as the integers the protocol uses (indices, lengths, timestamps). *)
Inductive Json :=
| JNull
| JBool (b : bool)
| JNum (n : Z)
| JStr (s : string)
| JArr (items : list Json)
| JObj (props : list (string * Json)).

(** [o[key]] on the property list of an object. *)
Fixpoint lookup (key : string) (props : list (string * Json)) : option Json :=
  match props with
  | [] => None
  | (k, v) :: rest => if decide (k = key) then Some v else lookup key rest
  end.

(** [msg.type]: reading a property of [null] throws, anything that is
    not an object has no such property. *)
Definition getType (msg : Json) : JS.outcome (option Json) :=
  match msg with
  | JNull => JS.Throws "TypeError: Cannot read properties of null (reading 'type')"
  | JObj props => JS.Ok (lookup "type" props)
  | _ => JS.Ok None
  end.

(** [v === s] for a string literal [s]. *)
Definition strictEqStr (v : option Json) (s : string) : bool :=
  match v with
  | Some (JStr t) => bool_decide (t = s)
  | _ => false
  end.

End JSON.

(** ** The incoming side of a WebSocket peer ([websocketReadableStream]) *)

Module WsStream.
Import JSON.

(** State of the stream behind a [ReadableStreamDefaultController].
    [Closed] also covers a close that was requested while chunks are
    still queued: from then on [close] and [enqueue] throw alike. *)
Inductive streamState := Readable | Closed | Errored.

(** [ws.readyState], as far as the stream code can tell it apart. *)
Inductive readyState := Open | Closing | WsClosed.

Record state := mkState {
  controller : streamState;
  (** chunks handed to the consumer by [controller.enqueue], oldest first *)
  enqueued : list Json;
  ws : readyState;
  (** the variable [pingTimeout] *)
  pingTimeout : option nat;
  (** timers set and neither fired nor cleared: handle to deadline in ms *)
  timers : gmap nat Z;
  (** next handle [setTimeout] returns; handles are positive *)
  nextTimer : nat;
  (** whether [closeListener] is still registered on the socket *)
  closeListening : bool
}.

(** State right after [start(controller)] ran. *)
Definition start : state :=
  {| controller := Readable; enqueued := []; ws := Open;
     pingTimeout := None; timers := ∅; nextTimer := 1;
     closeListening := true |}.

Definition idleTimeout : Z := 2500.

(** [controller.close()] *)
Definition controllerClose (s : state) : JS.outcome state :=
  match controller s with
  | Readable =>
      JS.Ok {| controller := Closed; enqueued := enqueued s; ws := ws s;
               pingTimeout := pingTimeout s; timers := timers s;
               nextTimer := nextTimer s; closeListening := closeListening s |}
  | _ => JS.Throws "TypeError: The stream is not in a state that permits close"
  end.

(** [controller.enqueue(msg)] *)
Definition controllerEnqueue (msg : Json) (s : state) : JS.outcome state :=
  match controller s with
  | Readable =>
      JS.Ok {| controller := Readable; enqueued := enqueued s ++ [msg];
               ws := ws s; pingTimeout := pingTimeout s; timers := timers s;
               nextTimer := nextTimer s; closeListening := closeListening s |}
  | _ => JS.Throws "TypeError: The stream is not in a state that permits enqueue"
  end.

(** [controller.error(e)]: ignored unless the stream is readable. *)
Definition controllerError (s : state) : state :=
  match controller s with
  | Readable =>
      {| controller := Errored; enqueued := enqueued s; ws := ws s;
         pingTimeout := pingTimeout s; timers := timers s;
         nextTimer := nextTimer s; closeListening := closeListening s |}
  | _ => s
  end.

(** [ws.close()]: starts the closing handshake of an open socket. *)
Definition wsClose (s : state) : state :=
  {| controller := controller s; enqueued := enqueued s;
     ws := match ws s with Open => Closing | r => r end;
     pingTimeout := pingTimeout s; timers := timers s;
     nextTimer := nextTimer s; closeListening := closeListening s |}.

(** [clearTimeout(pingTimeout)]; clearing [undefined] or a handle that
    is no longer pending does nothing. *)
Definition clearPingTimeout (s : state) : state :=
  {| controller := controller s; enqueued := enqueued s; ws := ws s;
     pingTimeout := pingTimeout s;
     timers := match pingTimeout s with
               | Some h => delete h (timers s)
               | None => timers s
               end;
     nextTimer := nextTimer s; closeListening := closeListening s |}.

(** [pingTimeout = setTimeout(.., 2500)] at time [now]. *)
Definition setPingTimeout (now : Z) (s : state) : state :=
  {| controller := controller s; enqueued := enqueued s; ws := ws s;
     pingTimeout := Some (nextTimer s);
     timers := <[nextTimer s := now + idleTimeout]> (timers s);
     nextTimer := S (nextTimer s); closeListening := closeListening s |}.

(** The callback of the ping timer: the [try] block stops at the first
    call that throws, the [catch] only logs. *)
Definition onPingTimeout (s : state) : state :=
  match controllerClose s with
  | JS.Ok s' => wsClose s'
  | JS.Throws _ => s
  end.

(** The stream is open and, if the last message came at [t], exactly
    one timer is pending, the one [pingTimeout] names, due at
    [t + 2500]; before any message none is. *)
Definition openSince (last : option Z) (s : state) : Prop :=
  controller s = Readable ∧ ws s = Open ∧ (0 < nextTimer s)%nat
  ∧ match last with
    | None => pingTimeout s = None ∧ timers s = ∅
    | Some t =>
        ∃ h, (0 < h)%nat ∧ pingTimeout s = Some h
             ∧ timers s = {[h := t + idleTimeout]}
    end.

Section Handlers.
(** [JSON.parse]; [None] stands for a [SyntaxError]. *)
Variable JSON_parse : string → option Json.

(** [ws.onmessage] at time [now] with [event.data = data]: the state
    afterwards and the error the handler threw, if any. *)
Definition onmessage (now : Z) (data : string) (s : state)
    : state * option string :=
  match JSON_parse data with
  | None => (s, Some "SyntaxError")
  | Some msg =>
      let s1 := match pingTimeout s with
                | Some (S _) => clearPingTimeout s
                | _ => s
                end in
      let s2 := setPingTimeout now s1 in
      match getType msg with
      | JS.Throws e => (s2, Some e)
      | JS.Ok ty =>
          if strictEqStr ty "ping" then (s2, None)
          else match controllerEnqueue msg s2 with
               | JS.Ok s3 => (s3, None)
               | JS.Throws e => (s2, Some e)
               end
      end
  end.

(** [closeListener] *)
Definition closeListener (s : state) : state * option string :=
  match controllerClose s with
  | JS.Ok s' => (clearPingTimeout s', None)
  | JS.Throws e => (s, Some e)
  end.

(** The ["error"] listener. *)
Definition errorListener (s : state) : state :=
  let s' := controllerError s in
  {| controller := controller s'; enqueued := enqueued s'; ws := ws s';
     pingTimeout := pingTimeout s'; timers := timers s';
     nextTimer := nextTimer s'; closeListening := false |}.

(** What can happen to the stream. A timer fires only once its
    deadline has passed; the socket reports [close] and [error] after
    it has left the open state; [Cancel] is the consumer cancelling
    the stream. *)
Inductive event :=
| Message (now : Z) (data : string)
| TimerFires (now : Z) (handle : nat)
| SocketClosed
| SocketErrored
| Cancel.

Definition socketDown (s : state) : state :=
  {| controller := controller s; enqueued := enqueued s; ws := WsClosed;
     pingTimeout := pingTimeout s; timers := timers s;
     nextTimer := nextTimer s; closeListening := closeListening s |}.

Definition fire (now : Z) (handle : nat) (s : state) : state :=
  match timers s !! handle with
  | Some deadline =>
      if decide (deadline ≤ now) then
        onPingTimeout
          {| controller := controller s; enqueued := enqueued s; ws := ws s;
             pingTimeout := pingTimeout s; timers := delete handle (timers s);
             nextTimer := nextTimer s; closeListening := closeListening s |}
      else s
  | None => s
  end.

Definition step (s : state) (e : event) : state :=
  match e with
  | Message now data => fst (onmessage now data s)
  | TimerFires now handle => fire now handle s
  | SocketClosed =>
      let s' := socketDown s in
      if closeListening s' then fst (closeListener s') else s'
  | SocketErrored => errorListener (socketDown s)
  | Cancel =>
      (* cancelling a readable stream closes it and runs [cancel()], which
         calls [ws.close()]; a stream that is closed or errored ignores it *)
      match controller s with
      | Readable =>
          wsClose
            {| controller := Closed; enqueued := enqueued s; ws := ws s;
               pingTimeout := pingTimeout s; timers := timers s;
               nextTimer := nextTimer s; closeListening := closeListening s |}
      | _ => s
      end
  end.

Definition run (s : state) (es : list event) : state := fold_left step es s.

(** The messages of a run of [Message] events, as the consumer should
    see them: parsed, pings left out. *)
Definition isPing (msg : Json) : bool :=
  match getType msg with
  | JS.Ok ty => strictEqStr ty "ping"
  | JS.Throws _ => false
  end.

Definition parsed (msgs : list (Z * string)) : list Json :=
  omap (λ m, JSON_parse (snd m)) msgs.

Definition messages (msgs : list (Z * string)) : list event :=
  map (λ m, Message (fst m) (snd m)) msgs.

(** A message the protocol allows: JSON text of a record. *)
Definition isRecord (data : string) : Prop :=
  ∃ props, JSON_parse data = Some (JObj props).

(** The arrival times of the frames [JSON.parse] accepted. *)
Definition parsedTimes (msgs : list (Z * string)) : list Z :=
  omap (λ m, match JSON_parse (snd m) with
             | Some _ => Some (fst m)
             | None => None
             end) msgs.
End Handlers.

(** [msg === null] *)
Definition isNull (msg : Json) : bool :=
  match msg with JNull => true | _ => false end.

End WsStream.

(** ** The platform's [URL] class, as far as [url.hash] goes

    Following the URL Standard: the input loses leading and trailing C0
    controls and spaces and every tab and newline; the fragment is what
    follows the first [#], serialised with the fragment percent-encode
    set; the [hash] getter is empty for a missing or empty fragment.
    Strings are byte strings, so a character outside ASCII shows up as
    the bytes of its UTF-8 form, each of them percent-encoded. *)

Module URL.

Definition code (c : ascii) : nat := nat_of_ascii c.

Definition isC0OrSpace (c : ascii) : bool := bool_decide (code c ≤ 32)%nat.

Definition isTabOrNewline (c : ascii) : bool :=
  bool_decide (code c = 9 ∨ code c = 10 ∨ code c = 13)%nat.

(** C0 controls, everything above the tilde, space, the double quote,
    the angle brackets and the backtick. *)
Definition inFragmentPercentEncodeSet (c : ascii) : bool :=
  bool_decide (code c ≤ 32 ∨ 126 < code c ∨ code c = 34 ∨ code c = 60
               ∨ code c = 62 ∨ code c = 96)%nat.

Fixpoint dropLeading (s : string) : string :=
  match s with
  | EmptyString => EmptyString
  | String c s' => if isC0OrSpace c then dropLeading s' else s
  end.

Fixpoint dropTrailing (s : string) : string :=
  match s with
  | EmptyString => EmptyString
  | String c s' =>
      match dropTrailing s' with
      | EmptyString => if isC0OrSpace c then EmptyString else String c EmptyString
      | t => String c t
      end
  end.

Fixpoint removeTabNewline (s : string) : string :=
  match s with
  | EmptyString => EmptyString
  | String c s' =>
      if isTabOrNewline c then removeTabNewline s'
      else String c (removeTabNewline s')
  end.

(** The text before the first [#] and, if there is one, the text after it. *)
Fixpoint splitFragment (s : string) : string * option string :=
  match s with
  | EmptyString => (EmptyString, None)
  | String c s' =>
      if decide (c = "#"%char) then (EmptyString, Some s')
      else let '(pre, frag) := splitFragment s' in (String c pre, frag)
  end.

Definition hexDigit (n : nat) : ascii :=
  match String.get n "0123456789ABCDEF" with
  | Some c => c
  | None => "0"%char
  end.

Definition percentEncode (c : ascii) : string :=
  String "%" (String (hexDigit (code c / 16)) (String (hexDigit (code c mod 16)) "")).

Fixpoint encodeFragment (s : string) : string :=
  match s with
  | EmptyString => EmptyString
  | String c s' =>
      if inFragmentPercentEncodeSet c then percentEncode c +:+ encodeFragment s'
      else String c (encodeFragment s')
  end.

Definition preprocess (input : string) : string :=
  removeTabNewline (dropTrailing (dropLeading input)).

Section Parser.
(** Whether the basic URL parser, run without a base URL, accepts the
    text in front of the fragment (scheme, authority, path, query).
    The fragment itself never makes a URL invalid. *)
Variable parses : string → bool.

(** [new URL(input).hash] *)
Definition hash (input : string) : JS.outcome string :=
  let '(pre, frag) := splitFragment (preprocess input) in
  if parses pre then
    JS.Ok match frag with
          | None | Some EmptyString => EmptyString
          | Some f => String "#" (encodeFragment f)
          end
  else JS.Throws "TypeError: Invalid URL".
End Parser.

(** A verdict to evaluate examples with: it accepts the [https] URLs
    that name a host, all of which the real parser accepts when they
    are written in letters, digits, dots and slashes. *)
Definition parsesHttps (pre : string) : bool :=
  String.prefix "https://" pre && bool_decide (8 < String.length pre)%nat.

(** A string the fragment serialiser leaves as it is. *)
Fixpoint unreserved (s : string) : bool :=
  match s with
  | EmptyString => true
  | String c s' => negb (inFragmentPercentEncodeSet c) && unreserved s'
  end.

(** Whether [c] occurs in [s]. *)
Fixpoint occurs (c : ascii) (s : string) : bool :=
  match s with
  | EmptyString => false
  | String d s' => bool_decide (d = c) || occurs c s'
  end.

End URL.

(** ** Invite links ([createInviteLink], [parseInviteLink]) *)

Module Invite.

Inductive Role := reader | writer | admin.

(** A covalue core: the ID that tells it from every other core, and
    the part of its header the link code reads; [ownedByGroup] holds the
    core [getGroup()] resolves to. *)
Inductive Ruleset :=
| group
| ownedByGroup (owner : CoValueCore)
| unsafeAllowAll
| account
with CoValueCore :=
| mkCore (coreID : string) (ruleset : Ruleset).

(** [core.id] *)
Definition idOf (c : CoValueCore) : string :=
  match c with mkCore i _ => i end.

(** [core.header.ruleset] *)
Definition rulesetOf (c : CoValueCore) : Ruleset :=
  match c with mkCore _ r => r end.

(** Both shapes the function accepts, a covalue and a resolved one,
    carry an [id] and lead to a core. *)
Record CoValue := mkCoValue {
  id : string;
  core : CoValueCore
}.

Record InviteLink := mkInviteLink {
  valueID : string;
  inviteSecret : string;
  valueHint : option string
}.

(** [while (currentCoValue.header.ruleset.type === "ownedByGroup")] *)
Fixpoint owningCore (c : CoValueCore) : CoValueCore :=
  match c with
  | mkCore _ (ownedByGroup owner) => owningCore owner
  | _ => c
  end.

(** [window.location.href.replace(/#.*$/, "")]; an [href] holds no line
    terminators, so the match runs from the first [#] to the end. *)
Definition withoutHash (href : string) : string := fst (URL.splitFragment href).

(** [s.split(sep)] for a one-character separator. *)
Fixpoint split (sep : ascii) (s : string) : list string :=
  match s with
  | EmptyString => [EmptyString]
  | String c s' =>
      if decide (c = sep) then EmptyString :: split sep s'
      else match split sep s' with
           | part :: parts => String c part :: parts
           | [] => [String c EmptyString]
           end
  end.

(** A non-empty string without a slash that the fragment serialiser
    leaves alone, as base58 IDs and secrets under their prefixes are. *)
Definition plain (s : string) : bool :=
  negb (bool_decide (s = "")) && negb (URL.occurs "/" s) && URL.unreserved s.

Section Links.
(** [group.createInvite(role)] on the group found at a core: the
    invite secret it hands out. *)
Variable createInvite : CoValueCore → Role → string.
(** [window.location.href] *)
Variable href : string.
Variable parses : string → bool.

Definition createInviteLink (value : CoValue) (role : Role)
    (baseURL valueHint : option string) : JS.outcome string :=
  let baseURL := default (withoutHash href) baseURL in
  let currentCoValue := owningCore (core value) in
  match rulesetOf currentCoValue with
  | group =>
      let inviteSecret := createInvite currentCoValue role in
      JS.Ok (baseURL +:+ "#/invite/"
             +:+ (if JS.truthy valueHint then default "" valueHint +:+ "/" else "")
             +:+ id value +:+ "/" +:+ inviteSecret)
  | _ => JS.Throws "Can't create invite link for object without group"
  end.

(** The body of [parseInviteLink] once [url.hash] is known. *)
Definition parseHash (hash : string) : option InviteLink :=
  let parts := split "/" hash in
  if bool_decide (parts !! 0%nat = Some "#") && bool_decide (parts !! 1%nat = Some "invite")
  then
    let '(valueHint, valueID, inviteSecret) :=
      if decide (length parts = 5%nat)
      then (parts !! 2%nat, parts !! 3%nat, parts !! 4%nat)
      else if decide (length parts = 4%nat)
      then (None, parts !! 2%nat, parts !! 3%nat)
      else (None, None, None) in
    if negb (JS.truthy valueID) || negb (JS.truthy inviteSecret) then None
    else Some {| valueID := default "" valueID;
                 inviteSecret := default "" inviteSecret;
                 valueHint := valueHint |}
  else None.

(** [None] is the [undefined] result. *)
Definition parseInviteLink (inviteURL : string) : JS.outcome (option InviteLink) :=
  match URL.hash parses inviteURL with
  | JS.Ok hash => JS.Ok (parseHash hash)
  | JS.Throws e => JS.Throws e
  end.
End Links.

End Invite.

(** ** Canonical encoding and the crypto envelope

    The cojson crypto module is exercised by its test suite; its
    operations are modelled here from their contracts, over the
    primitives the contracts name. *)

Module Crypto.
Import JSON.

Definition doubleQuote : ascii := ascii_of_nat 34.
Definition backslash : ascii := ascii_of_nat 92.

Fixpoint escape (s : string) : string :=
  match s with
  | EmptyString => EmptyString
  | String c s' =>
      if decide (c = doubleQuote ∨ c = backslash)
      then String backslash (String c (escape s'))
      else String c (escape s')
  end.

(** A string as a JSON string literal. *)
Definition quote (s : string) : string :=
  String doubleQuote (escape s +:+ String doubleQuote EmptyString).

(** Order on rendered properties: by key, lexicographically. *)
Definition keyLe (p q : string * string) : Prop := (p.1 ≤ q.1)%string.

Definition renderProp (p : string * string) : string := quote p.1 +:+ ":" +:+ p.2.

(** Modelled from the spec: the canonical encoding of section 4.2 is
    part of the cojson core; object keys are sorted lexicographically
    at every depth, arrays are left in order. *)
Fixpoint stableStringify (x : Json) : string :=
  match x with
  | JNull => "null"
  | JBool true => "true"
  | JBool false => "false"
  | JNum n => pretty n
  | JStr s => quote s
  | JArr items => "[" +:+ String.concat "," (List.map stableStringify items) +:+ "]"
  | JObj props =>
      "{" +:+ String.concat ","
                (List.map renderProp
                   (merge_sort keyLe
                      (List.map (λ p, match p with
                                      | (k, v) => (k, stableStringify v)
                                      end) props)))
      +:+ "}"
  end.

(** A property rendered: its key and the canonical text of its value. *)
Definition rendered (p : string * Json) : string * string :=
  match p with (k, v) => (k, stableStringify v) end.

(** [JSON.stringify]: the same rendering with the properties in
    insertion order. *)
Fixpoint stringify (x : Json) : string :=
  match x with
  | JNull => "null"
  | JBool true => "true"
  | JBool false => "false"
  | JNum n => pretty n
  | JStr s => quote s
  | JArr items => "[" +:+ String.concat "," (List.map stringify items) +:+ "]"
  | JObj props =>
      "{" +:+ String.concat ","
                (List.map (λ p, match p with
                                | (k, v) => renderProp (k, stringify v)
                                end) props)
      +:+ "}"
  end.

(** A JSON value as JavaScript can hold it: no object has a key twice. *)
Inductive WellFormed : Json → Prop :=
| wf_null : WellFormed JNull
| wf_bool b : WellFormed (JBool b)
| wf_num n : WellFormed (JNum n)
| wf_str s : WellFormed (JStr s)
| wf_arr items : Forall WellFormed items → WellFormed (JArr items)
| wf_obj props :
    NoDup props.*1 → Forall (λ p, WellFormed p.2) props →
    WellFormed (JObj props).

(** The same value with the properties of its objects, at any depth,
    inserted in another order. *)
Inductive Reordered : Json → Json → Prop :=
| ro_refl x : Reordered x x
| ro_arr items items' :
    Forall2 Reordered items items' → Reordered (JArr items) (JArr items')
| ro_obj props mid props' :
    Forall2 (λ p q, p.1 = q.1 ∧ Reordered p.2 q.2) props mid →
    mid ≡ₚ props' →
    Reordered (JObj props) (JObj props').

(** Modelled from the spec: the primitives the contracts of section 4.1
    name, which the crypto module takes from libraries: Ed25519
    signatures, X25519 key agreement, the XSalsa20-Poly1305 box and
    BLAKE3. *)
Class Primitives := {
  SignerSecret : Type;
  SignerID : Type;
  Signature : Type;
  getSignerID : SignerSecret → SignerID;
  ed25519_sign : SignerSecret → string → Signature;
  ed25519_verify : Signature → string → SignerID → bool;
  SealerSecret : Type;
  SealerID : Type;
  getSealerID : SealerSecret → SealerID;
  Key : Type;
  x25519_sharedSecret : SealerSecret → SealerID → Key;
  Ciphertext : Type;
  (** [None] from [box_open] is a tag that does not verify *)
  box_seal : Key → string → string → Ciphertext;
  box_open : Key → string → Ciphertext → option string;
  blake3 : string → string;
  JSON_parse : string → option Json
}.

(** Modelled from the spec: the primitives as the contracts of
    sections 4.1 and 8 take them, idealised: a signature verifies under
    the signer that made it and no other, a box opens under the key that
    sealed it and no other, and a shared secret pins down the secret on
    either side. *)
Class Ideal (P : Primitives) : Prop := {
  verify_own sk m : ed25519_verify (ed25519_sign sk m) m (getSignerID sk) = true;
  verify_other sk sk' m :
    sk ≠ sk' → ed25519_verify (ed25519_sign sk m) m (getSignerID sk') = false;
  open_own k n m : box_open k n (box_seal k n m) = Some m;
  open_other k k' n m : k ≠ k' → box_open k' n (box_seal k n m) = None;
  shared_agree a b :
    x25519_sharedSecret a (getSealerID b) = x25519_sharedSecret b (getSealerID a);
  shared_other a a' p :
    a ≠ a' → x25519_sharedSecret a p ≠ x25519_sharedSecret a' p
}.

Section Envelope.
Context {P : Primitives}.

(** Modelled from the spec: [sign(signerSecret, payload)]; the
    payload is canonicalized before it is hashed and signed. *)
Definition sign (signerSecret : SignerSecret) (payload : Json) : Signature :=
  ed25519_sign signerSecret (stableStringify payload).

(** Modelled from the spec: [verify(sig, payload, signerID)]. *)
Definition verify (sig : Signature) (payload : Json) (signerID : SignerID) : bool :=
  ed25519_verify sig (stableStringify payload) signerID.

End Envelope.

(** A small instance to evaluate examples with: secrets are integers, a
    signature and a box record what went into them. *)
#[local] Instance demo : Primitives := {|
  SignerSecret := Z;
  SignerID := Z;
  Signature := Z * string;
  getSignerID := λ sk, sk;
  ed25519_sign := λ sk m, (sk, m);
  ed25519_verify := λ sig m pk, bool_decide (sig = (pk, m));
  SealerSecret := Z;
  SealerID := Z;
  getSealerID := λ sk, sk;
  Key := Z;
  x25519_sharedSecret := λ a b, a + b;
  Ciphertext := Z * string * string;
  box_seal := λ k n m, (k, n, m);
  box_open := λ k n c, if decide (c.1 = (k, n)) then Some c.2 else None;
  blake3 := λ s, s;
  JSON_parse := λ s, Some (JStr s)
|}.

End Crypto.

(** ** The passphrase auth provider ([signUp], [logIn]) *)

Module Passphrase.
Import JSON.

Definition localStorageKey : string := "jazz-logged-in-secret".

(** [JSON.stringify({accountID, accountSecret})] *)
Definition storageData (accountID accountSecret : string) : string :=
  Crypto.stringify
    (JObj [("accountID", JStr accountID); ("accountSecret", JStr accountSecret)]).

(** What a run leaves behind once the credentials are derived; [node]
    is the node the call resolves to, or the error it rejects with. *)
Record Outcome (Node : Type) := mkOutcome {
  accountID : string;
  accountSecret : string;
  sessionID : string;
  node : JS.outcome Node;
  localStorage : gmap string string
}.
Arguments mkOutcome {Node}.
Arguments accountID {Node}.
Arguments accountSecret {Node}.
Arguments sessionID {Node}.
Arguments node {Node}.
Arguments localStorage {Node}.

Section Provider.
Variables Header Node : Type.

(** [bip39.mnemonicToEntropy(passphrase, wordlist)]; [None] when the
    passphrase is not a valid mnemonic of the wordlist (it throws). *)
Variable mnemonicToEntropy : string → list string → option string.
(** Key derivation from a seed: the bodies of the sealer and the
    signer secret. *)
Variables sealerSecretFromSeed signerSecretFromSeed : string → string.
(** The pure helpers of [cojsonInternals]. *)
Variable accountHeaderForInitialAgentSecret : string → Header.
Variable idforHeader : Header → string.

(** Modelled from the spec: [cojsonInternals.agentSecretFromSecretSeed]
    is part of the cojson core; an agent secret bundles the private
    halves of the sealing and the signing identity under their typed
    prefixes. *)
Definition agentSecretFromSecretSeed (secretSeed : string) : string :=
  "sealerSecret_z" +:+ sealerSecretFromSeed secretSeed
  +:+ "/signerSecret_z" +:+ signerSecretFromSeed secretSeed.

(** The parts of a run that depend on the device and the network:
    the session provider handed to the auth provider, and what
    [LocalNode] does with the peers at hand. *)
Record Env := mkEnv {
  getSessionFor : string → string;
  (** [LocalNode.withLoadedAccount({accountID, accountSecret, sessionID, ..})] *)
  withLoadedAccount : string → string → string → JS.outcome Node;
  (** the node [LocalNode.withNewlyCreatedAccount] builds for a
      name and an agent secret *)
  newNode : string → string → Node
}.

(** Modelled from the spec: [LocalNode.withNewlyCreatedAccount] is
    part of the cojson core. It creates the account covalue for the
    agent secret it is given, and a covalue's ID is the hash of its
    header; the header of an account is the one
    [accountHeaderForInitialAgentSecret] builds. *)
Definition withNewlyCreatedAccount (env : Env) (name initialAgentSecret : string)
    : Node * string * string :=
  (newNode env name initialAgentSecret,
   idforHeader (accountHeaderForInitialAgentSecret initialAgentSecret),
   initialAgentSecret).

Definition signUp (env : Env) (username passphrase : string)
    (wordlist : list string) (ls : gmap string string)
    : JS.outcome (Outcome Node) :=
  match mnemonicToEntropy passphrase wordlist with
  | None => JS.Throws "Invalid mnemonic"
  | Some secretSeed =>
      let '(node, accountID, accountSecret) :=
        withNewlyCreatedAccount env username
          (agentSecretFromSecretSeed secretSeed) in
      let ls' := <[localStorageKey := storageData accountID accountSecret]> ls in
      JS.Ok {| accountID := accountID; accountSecret := accountSecret;
               sessionID := getSessionFor env accountID;
               node := JS.Ok node; localStorage := ls' |}
  end.

Definition logIn (env : Env) (passphrase : string) (wordlist : list string)
    (ls : gmap string string) : JS.outcome (Outcome Node) :=
  match mnemonicToEntropy passphrase wordlist with
  | None => JS.Throws "Invalid mnemonic"
  | Some accountSecretSeed =>
      let accountSecret := agentSecretFromSecretSeed accountSecretSeed in
      if negb (JS.truthy (Some accountSecret))
      then JS.Throws "Invalid credential"
      else
        let accountID :=
          idforHeader (accountHeaderForInitialAgentSecret accountSecret) in
        let ls' := <[localStorageKey := storageData accountID accountSecret]> ls in
        let sessionID := getSessionFor env accountID in
        JS.Ok {| accountID := accountID; accountSecret := accountSecret;
                 sessionID := sessionID;
                 node := withLoadedAccount env accountID accountSecret sessionID;
                 localStorage := ls' |}
  end.

(** The passphrase is a valid mnemonic of the wordlist. *)
Definition validPassphrase (passphrase : string) (wordlist : list string) : Prop :=
  is_Some (mnemonicToEntropy passphrase wordlist).
End Provider.

End Passphrase.

(** ** Invariants of the incoming stream *)

Module WsStreamInv.
Import WsStream.

(** Timer handles are positive, and a pending timer is the one the
    variable [pingTimeout] names. *)
Definition singleTimer (s : state) : Prop :=
  (0 < nextTimer s)%nat
  ∧ ∀ h d, timers s !! h = Some d → pingTimeout s = Some h ∧ (0 < h)%nat.

End WsStreamInv.

(** ** The outgoing side of a WebSocket peer ([websocketWritableStream]) *)

Module WsWritable.

(** [ws.readyState] *)
Inductive readyState := Connecting | Open | Closing | Closed.

(** The stream around the sink: it hands chunks to [write] while it is
    writable, calls [close] or [abort] once and then takes no more
    chunks, and takes none after [controller.error] either. *)
Inductive status := Writable | Finishing | Errored (e : string).

Section Sink.
(** The type of the chunks and [JSON.stringify] on it. *)
Variable T : Type.
Variable JSON_stringify : T → string.

Record state := mkState {
  stream : status;
  (** the variables [isOpen] and [initialQueue] *)
  isOpen : bool;
  initialQueue : list T;
  ws : readyState;
  (** frames [ws.send] put on the wire, oldest first *)
  transmitted : list string;
  (** arguments of the [ws.close(code, reason)] calls, oldest first *)
  closeCalls : list (Z * option string)
}.

(** State right after [start(controller)] ran on a socket that is
    still connecting. *)
Definition start : state :=
  {| stream := Writable; isOpen := false; initialQueue := []; ws := Connecting;
     transmitted := []; closeCalls := [] |}.

(** [ws.send(data)]: throws while the socket is connecting, transmits
    on an open socket, and drops the data once the socket is closing or
    closed. *)
Definition wsSend (data : string) (s : state) : JS.outcome state :=
  match ws s with
  | Connecting => JS.Throws "InvalidStateError"
  | Open =>
      JS.Ok {| stream := stream s; isOpen := isOpen s;
               initialQueue := initialQueue s; ws := ws s;
               transmitted := transmitted s ++ [data];
               closeCalls := closeCalls s |}
  | _ => JS.Ok s
  end.

(** [controller.error(e)]: only a writable stream takes it. *)
Definition controllerError (e : string) (s : state) : state :=
  {| stream := match stream s with Writable => Errored e | st => st end;
     isOpen := isOpen s; initialQueue := initialQueue s; ws := ws s;
     transmitted := transmitted s; closeCalls := closeCalls s |}.

(** [for (const item of initialQueue) ws.send(JSON.stringify(item))];
    a send that throws ends the loop. *)
Fixpoint flush (items : list T) (s : state) : JS.outcome state :=
  match items with
  | [] => JS.Ok s
  | item :: rest =>
      match wsSend (JSON_stringify item) s with
      | JS.Ok s' => flush rest s'
      | JS.Throws e => JS.Throws e
      end
  end.

(** The ["open"] listener. *)
Definition onOpen (s : state) : state :=
  match flush (initialQueue s) s with
  | JS.Ok s' =>
      {| stream := stream s'; isOpen := true; initialQueue := initialQueue s';
         ws := ws s'; transmitted := transmitted s'; closeCalls := closeCalls s' |}
  | JS.Throws _ => s
  end.

(** [write(chunk)]: the state afterwards and the error thrown, if any. *)
Definition write (chunk : T) (s : state) : state * option string :=
  if isOpen s then
    match wsSend (JSON_stringify chunk) s with
    | JS.Ok s' => (s', None)
    | JS.Throws e => (s, Some e)
    end
  else
    ({| stream := stream s; isOpen := isOpen s;
        initialQueue := initialQueue s ++ [chunk]; ws := ws s;
        transmitted := transmitted s; closeCalls := closeCalls s |}, None).

(** [closeWS(code, reasonString)]: the call to [ws.close]; a socket that
    is connecting or open starts closing. *)
Definition closeWS (code : Z) (reasonString : option string) (s : state) : state :=
  {| stream := Finishing; isOpen := isOpen s; initialQueue := initialQueue s;
     ws := match ws s with Connecting | Open => Closing | r => r end;
     transmitted := transmitted s;
     closeCalls := closeCalls s ++ [(code, reasonString)] |}.

(** What can happen to the stream: the producer writes a chunk, closes
    or aborts the stream; the socket opens, closes or fails. *)
Inductive event :=
| Write (chunk : T)
| CloseStream
| AbortStream (reason : option string)
| SocketOpens
| SocketCloses
| SocketErrors (event : string).

Definition socketTo (r : readyState) (s : state) : state :=
  {| stream := stream s; isOpen := isOpen s; initialQueue := initialQueue s;
     ws := r; transmitted := transmitted s; closeCalls := closeCalls s |}.

Definition step (s : state) (e : event) : state :=
  match e with
  | Write chunk =>
      match stream s with
      | Writable => (write chunk s).1
      | _ => s
      end
  | CloseStream =>
      match stream s with
      | Writable => closeWS 1000 None s
      | _ => s
      end
  | AbortStream reason =>
      match stream s with
      | Writable => closeWS 4000 reason s
      | _ => s
      end
  | SocketOpens =>
      match ws s with
      | Connecting => onOpen (socketTo Open s)
      | _ => s
      end
  | SocketCloses =>
      controllerError "The server closed the connection unexpectedly!"
        (socketTo Closed s)
  | SocketErrors event =>
      controllerError ("The WebSocket errored!" +:+ event) (socketTo Closed s)
  end.

Definition run (s : state) (es : list event) : state := fold_left step es s.

Definition writes (chunks : list T) : list event := map Write chunks.
End Sink.

Arguments stream {T} s.
Arguments isOpen {T} s.
Arguments initialQueue {T} s.
Arguments ws {T} s.
Arguments transmitted {T} s.
Arguments closeCalls {T} s.
Arguments Write {T} chunk.
Arguments CloseStream {T}.
Arguments AbortStream {T} reason.
Arguments SocketOpens {T}.
Arguments SocketCloses {T}.
Arguments SocketErrors {T} event.

End WsWritable.

(** ** The reconnection loop, await by await

    The loop of [createBrowserNode] again, this time with the peer
    table it inspects and with its two awaits as places where other
    events come in between. *)

Module ReconnectLoop.

(** [haystack.includes(needle)] *)
Fixpoint includes (needle haystack : string) : bool :=
  String.prefix needle haystack
  || match haystack with
     | EmptyString => false
     | String _ rest => includes needle rest
     end.

(** Where the loop is suspended: in the 100 ms sleep of the connected
    branch, in the wait before a reconnection attempt, or nowhere any
    more, the [while] having ended. *)
Inductive place := Sleeping | Waiting | Exited.

Record state := mkState {
  syncAddress : string;
  initialReconnectionTimeout : Z;
  currentReconnectionTimeout : Z;
  shouldTryToReconnect : bool;
  loopAt : place;
  (** [Object.keys(node.syncManager.peers)] *)
  peers : list string;
  (** delays handed to [setTimeout] before a reconnection attempt *)
  waits : list Z;
  (** IDs of the peers the loop added, oldest first *)
  added : list string
}.

(** The [id] of the peer [createWebSocketPeer] builds at the time
    [new Date().toISOString()] reads as [date]. *)
Definition createWebSocketPeerId (syncAddress date : string) : string :=
  syncAddress +:+ "@" +:+ date.

(** [Object.keys(node.syncManager.peers).some((peerId) =>
    peerId.includes(syncAddress))] *)
Definition connected (s : state) : bool :=
  existsb (includes (syncAddress s)) (peers s).

(** [addPeer] files the peer under its ID. *)
Definition addPeer (id : string) (s : state) : state :=
  {| syncAddress := syncAddress s;
     initialReconnectionTimeout := initialReconnectionTimeout s;
     currentReconnectionTimeout := currentReconnectionTimeout s;
     shouldTryToReconnect := shouldTryToReconnect s;
     loopAt := loopAt s;
     peers := if bool_decide (id ∈ peers s) then peers s else peers s ++ [id];
     waits := waits s;
     added := added s ++ [id] |}.

(** From the test of the [while] to the next [await]. *)
Definition loopHead (s : state) : state :=
  if negb (shouldTryToReconnect s) then
    {| syncAddress := syncAddress s;
       initialReconnectionTimeout := initialReconnectionTimeout s;
       currentReconnectionTimeout := currentReconnectionTimeout s;
       shouldTryToReconnect := shouldTryToReconnect s;
       loopAt := Exited; peers := peers s; waits := waits s; added := added s |}
  else if connected s then
    {| syncAddress := syncAddress s;
       initialReconnectionTimeout := initialReconnectionTimeout s;
       currentReconnectionTimeout := currentReconnectionTimeout s;
       shouldTryToReconnect := shouldTryToReconnect s;
       loopAt := Sleeping; peers := peers s; waits := waits s; added := added s |}
  else
    let t := Z.min (currentReconnectionTimeout s * 2) 30000 in
    {| syncAddress := syncAddress s;
       initialReconnectionTimeout := initialReconnectionTimeout s;
       currentReconnectionTimeout := t;
       shouldTryToReconnect := shouldTryToReconnect s;
       loopAt := Waiting; peers := peers s; waits := waits s ++ [t];
       added := added s |}.

(** The awaited promise resolves (the timer fired, or the browser came
    online during the wait) and the loop runs on to its next await. *)
Definition resume (date : string) (s : state) : state :=
  match loopAt s with
  | Sleeping => loopHead s
  | Waiting => loopHead (addPeer (createWebSocketPeerId (syncAddress s) date) s)
  | Exited => s
  end.

(** What can happen between two awaits: the loop resumes, the browser
    reports that the network is back, the handle's [done] is called, or
    the sync manager drops or gains a peer. *)
Inductive event :=
| Resumes (date : string)
| Online
| Done
| PeerRemoved (id : string)
| PeerAdded (id : string).

Definition step (s : state) (e : event) : state :=
  match e with
  | Resumes date => resume date s
  | Online =>
      (* [onOnline] is registered until [done] removes it, which is also
         where [shouldTryToReconnect] becomes false *)
      {| syncAddress := syncAddress s;
         initialReconnectionTimeout := initialReconnectionTimeout s;
         currentReconnectionTimeout :=
           if shouldTryToReconnect s then initialReconnectionTimeout s
           else currentReconnectionTimeout s;
         shouldTryToReconnect := shouldTryToReconnect s;
         loopAt := loopAt s; peers := peers s; waits := waits s; added := added s |}
  | Done =>
      {| syncAddress := syncAddress s;
         initialReconnectionTimeout := initialReconnectionTimeout s;
         currentReconnectionTimeout := currentReconnectionTimeout s;
         shouldTryToReconnect := false;
         loopAt := loopAt s; peers := peers s; waits := waits s; added := added s |}
  | PeerRemoved id =>
      {| syncAddress := syncAddress s;
         initialReconnectionTimeout := initialReconnectionTimeout s;
         currentReconnectionTimeout := currentReconnectionTimeout s;
         shouldTryToReconnect := shouldTryToReconnect s;
         loopAt := loopAt s;
         peers := List.filter (λ p, negb (bool_decide (p = id))) (peers s);
         waits := waits s; added := added s |}
  | PeerAdded id =>
      {| syncAddress := syncAddress s;
         initialReconnectionTimeout := initialReconnectionTimeout s;
         currentReconnectionTimeout := currentReconnectionTimeout s;
         shouldTryToReconnect := shouldTryToReconnect s;
         loopAt := loopAt s;
         peers := if bool_decide (id ∈ peers s) then peers s else peers s ++ [id];
         waits := waits s; added := added s |}
  end.

Definition run (s : state) (es : list event) : state := fold_left step es s.

(** [void websocketReconnectLoop()] on the node [auth.createNode]
    returned, whose peer table holds [peers0]. *)
Definition websocketReconnectLoop (syncAddress : string) (reconnectionTimeout : Z)
    (peers0 : list string) : state :=
  loopHead {| syncAddress := syncAddress;
              initialReconnectionTimeout := reconnectionTimeout;
              currentReconnectionTimeout := reconnectionTimeout;
              shouldTryToReconnect := true;
              loopAt := Sleeping; peers := peers0; waits := []; added := [] |}.

Definition isRemoval (e : event) : bool :=
  match e with PeerRemoved _ => true | _ => false end.

(** How many more peers the loop can still add once it has been told
    to stop: the one of the attempt it is in the middle of. *)
Definition inFlight (s : state) : nat :=
  match loopAt s with Waiting => 1 | _ => 0 end.

End ReconnectLoop.

(** ** The demo auth provider ([BrowserDemoAuth]) *)

Module DemoAuth.

Definition localStorageKey : string := "demo-auth-logged-in-secret".

Definition existingUsersKey : string := "demo-auth-existing-users".

(** ["demo-auth-existing-users-" + username] *)
Definition userKey (username : string) : string :=
  "demo-auth-existing-users-" +:+ username.

Record StorageData := mkStorageData {
  accountID : string;
  accountSecret : string
}.

(** What [createNode] goes on to do: load the account of the stored
    credentials, or hand the driver the list of existing users and wait
    for a sign-up or a log-in. *)
Inductive Next :=
| Loads (data : StorageData)
| Ready (existingUsers : list string).

Inductive op :=
| SignUp (username : string) (data : StorageData)
| LogInAs (existingUser : string)
| LogOut.

Section Provider.
(** [JSON.stringify] and [JSON.parse] on the stored credentials;
    [None] stands for a [SyntaxError]. *)
Variable JSON_stringify : StorageData → string.
Variable JSON_parse : string → option StorageData.

(** [localStorage["demo-auth-existing-users"]?.split(",") ?? []] *)
Definition existingUsers (ls : gmap string string) : list string :=
  match ls !! existingUsersKey with
  | Some users => Invite.split "," users
  | None => []
  end.

Definition createNode (ls : gmap string string) : JS.outcome Next :=
  if JS.truthy (ls !! localStorageKey) then
    match JSON_parse (default "" (ls !! localStorageKey)) with
    | Some data => JS.Ok (Loads data)
    | None => JS.Throws "SyntaxError"
    end
  else JS.Ok (Ready (existingUsers ls)).

(** [signUp(username)], [data] being the credentials of the account
    [LocalNode.withNewlyCreatedAccount] made. *)
Definition signUp (username : string) (data : StorageData)
    (ls : gmap string string) : gmap string string :=
  let storageData := JSON_stringify data in
  let ls1 := <[localStorageKey := storageData]> ls in
  let ls2 := <[userKey username := storageData]> ls1 in
  <[existingUsersKey :=
      match ls2 !! existingUsersKey with
      | Some (String c users) => String c users +:+ "," +:+ username
      | _ => username
      end]> ls2.

(** [logInAs(existingUser)]: the credentials the account is loaded
    with and the storage afterwards. *)
Definition logInAs (existingUser : string) (ls : gmap string string)
    : JS.outcome (StorageData * gmap string string) :=
  match ls !! userKey existingUser with
  | None => JS.Throws "SyntaxError"
  | Some stored =>
      match JSON_parse stored with
      | None => JS.Throws "SyntaxError"
      | Some storageData =>
          JS.Ok (storageData, <[localStorageKey := JSON_stringify storageData]> ls)
      end
  end.

Definition logOut (ls : gmap string string) : gmap string string :=
  delete localStorageKey ls.

(** The storage after one operation; a log-in that throws leaves it
    as it is. *)
Definition apply (ls : gmap string string) (o : op) : gmap string string :=
  match o with
  | SignUp username data => signUp username data ls
  | LogInAs existingUser =>
      match logInAs existingUser ls with
      | JS.Ok (_, ls') => ls'
      | JS.Throws _ => ls
      end
  | LogOut => logOut ls
  end.

Definition run (ls : gmap string string) (ops : list op) : gmap string string :=
  fold_left apply ops ls.
End Provider.

(** The credentials of the last sign-up under a name, if there is one. *)
Fixpoint lastSignUp (username : string) (ops : list op) : option StorageData :=
  match ops with
  | [] => None
  | o :: rest =>
      match lastSignUp username rest with
      | Some data => Some data
      | None =>
          match o with
          | SignUp u data => if decide (u = username) then Some data else None
          | _ => None
          end
      end
  end.

(** The names signed up, in order. *)
Definition signedUp (ops : list op) : list string :=
  omap (λ o, match o with SignUp u _ => Some u | _ => None end) ops.

(** The credentials signed up with. *)
Definition credentials (ops : list op) : list StorageData :=
  omap (λ o, match o with SignUp _ data => Some data | _ => None end) ops.

(** A name that can go into the list of users: not empty, no comma. *)
Definition listable (username : string) : Prop :=
  username ≠ "" ∧ URL.occurs "," username = false.

End DemoAuth.

(** ** The passphrase auth provider: [createNode] and [logOut] *)

Module PassphraseNode.

(** What [createNode] goes on to do: load the account of the stored
    credentials, or hand the driver [signUp] and [logIn] and wait. *)
Inductive Next :=
| Loads (accountID accountSecret : string)
| Ready.

Section Provider.
(** [JSON.parse] on the stored credentials, read as [accountID] and
    [accountSecret]; [None] stands for a [SyntaxError]. *)
Variable JSON_parse : string → option (string * string).

Definition createNode (ls : gmap string string) : JS.outcome Next :=
  if JS.truthy (ls !! Passphrase.localStorageKey) then
    match JSON_parse (default "" (ls !! Passphrase.localStorageKey)) with
    | Some (accountID, accountSecret) => JS.Ok (Loads accountID accountSecret)
    | None => JS.Throws "SyntaxError"
    end
  else JS.Ok Ready.
End Provider.

Definition logOut (ls : gmap string string) : gmap string string :=
  delete Passphrase.localStorageKey ls.

End PassphraseNode.

(** ** Consuming an invite link ([consumeInviteLinkFromWindowLocation]) *)

Module InviteConsume.
Import Invite.

Record Result := mkResult {
  (** what the returned promise settles to: resolved with a value, or
      rejected with an error *)
  settled : JS.outcome (option InviteLink);
  (** arguments of the [node.acceptInvite] calls *)
  accepted : list (string * string);
  (** [window.location.href] afterwards *)
  location : string
}.

Section Consume.
Variable parses : string → bool.
(** [node.acceptInvite(valueID, inviteSecret)]: fulfilled or rejected. *)
Variable acceptInvite : string → string → JS.outcome unit.

Definition consumeInviteLinkFromWindowLocation (href : string) : Result :=
  match parseInviteLink parses href with
  | JS.Throws e => {| settled := JS.Throws e; accepted := []; location := href |}
  | JS.Ok None => {| settled := JS.Ok None; accepted := []; location := href |}
  | JS.Ok (Some result) =>
      match acceptInvite (valueID result) (inviteSecret result) with
      | JS.Ok _ =>
          {| settled := JS.Ok (Some result);
             accepted := [(valueID result, inviteSecret result)];
             location := withoutHash href |}
      | JS.Throws e =>
          {| settled := JS.Throws e;
             accepted := [(valueID result, inviteSecret result)];
             location := href |}
      end
  end.
End Consume.

(** [c] is owned, through any number of [ownedByGroup] links, by [g]. *)
Inductive OwnedBy : CoValueCore → CoValueCore → Prop :=
| owned_here c : OwnedBy c c
| owned_up i owner g : OwnedBy owner g → OwnedBy (mkCore i (ownedByGroup owner)) g.

(** The fragment that reads back as a link. *)
Definition fragmentOf (l : InviteLink) : string :=
  "#/invite/"
  +:+ match valueHint l with Some h => h +:+ "/" | None => "" end
  +:+ valueID l +:+ "/" +:+ inviteSecret l.

End InviteConsume.

(** ** Hashes of the crypto envelope *)

Module CryptoHash.
Import JSON Crypto.

Section Hashes.
Context {P : Primitives}.

(** Modelled from the spec: [secureHash(value)] is the BLAKE3 hash of
    the canonical encoding of the value. *)
Definition secureHash (value : Json) : string := blake3 (stableStringify value).

(** Modelled from the spec: [shortHash(value)] is the leading 16 bytes
    of that hash. *)
Definition shortHash (value : Json) : string :=
  String.substring 0 16 (blake3 (stableStringify value)).
End Hashes.

End CryptoHash.

(* ===================================================================== *)
(** * Part II: properties                                                 *)
(* ===================================================================== *)

(** ** Reconnection backoff *)

Section ReconnectProps.
Import Reconnect.

Lemma nextTimeout_capped c : nextTimeout c ≤ 30000.
Proof. unfold nextTimeout. lia. Qed.

(** Doubling under the cap composes: [k] doublings in a row are one
    multiplication by [2 ^ k] under the same cap. *)
Lemma nextTimeout_iter c (k : nat) :
  nextTimeout (Z.min (c * 2 ^ Z.of_nat k) 30000) = Z.min (c * 2 ^ Z.of_nat (S k)) 30000.
Proof.
  unfold nextTimeout. rewrite Nat2Z.inj_succ, Z.pow_succ_r by lia. lia.
Qed.

Lemma step_initial s e :
  initialReconnectionTimeout (step s e) = initialReconnectionTimeout s.
Proof.
  destruct e as [|connected|]; simpl; try done.
  - by destruct (shouldTryToReconnect s).
  - unfold loopBody. destruct (shouldTryToReconnect s), connected; done.
Qed.

Lemma run_initial es s :
  initialReconnectionTimeout (run s es) = initialReconnectionTimeout s.
Proof.
  unfold run. revert s. induction es as [|e es IH]; intros s; simpl; [done|].
  rewrite IH. apply step_initial.
Qed.

Lemma step_waits_capped s e :
  Forall (λ w, w ≤ 30000) (reconnectWaits s) →
  Forall (λ w, w ≤ 30000) (reconnectWaits (step s e)).
Proof.
  intros Hs. destruct e as [|connected|]; simpl; try done.
  - by destruct (shouldTryToReconnect s).
  - unfold loopBody. destruct (shouldTryToReconnect s), connected; simpl; try done.
    apply Forall_app. split; [done|]. repeat constructor. apply nextTimeout_capped.
Qed.

Lemma run_waits_capped es s :
  Forall (λ w, w ≤ 30000) (reconnectWaits s) →
  Forall (λ w, w ≤ 30000) (reconnectWaits (run s es)).
Proof.
  unfold run. revert s. induction es as [|e es IH]; intros s Hs; simpl; [done|].
  apply IH, step_waits_capped, Hs.
Qed.

Lemma backoff_S c n :
  backoff c (S n) = backoff c n ++ [Z.min (c * 2 ^ Z.of_nat (S n)) 30000].
Proof. unfold backoff. rewrite seq_S, map_app. done. Qed.

Lemma failures_S n : failures (S n) = failures n ++ [Iteration false].
Proof.
  unfold failures. induction n as [|n IH]; [done|].
  simpl in *. by rewrite <- IH.
Qed.

Lemma run_app s es1 es2 : run s (es1 ++ es2) = run (run s es1) es2.
Proof. unfold run. apply fold_left_app. Qed.

Lemma run_failures s n :
  shouldTryToReconnect s = true →
  let s' := run s (failures n) in
  shouldTryToReconnect s' = true
  ∧ reconnectWaits s' = reconnectWaits s ++ backoff (currentReconnectionTimeout s) n
  ∧ currentReconnectionTimeout s'
    = match n with
      | O => currentReconnectionTimeout s
      | S _ => Z.min (currentReconnectionTimeout s * 2 ^ Z.of_nat n) 30000
      end.
Proof.
  intros Hs. cbv zeta. induction n as [|n (Ht & Hw & Hc)].
  { simpl. by rewrite app_nil_r. }
  rewrite failures_S, run_app, backoff_S.
  set (s1 := run s (failures n)) in *.
  change (run s1 [Iteration false]) with (loopBody false s1).
  unfold loopBody. rewrite Ht. cbn [negb reconnectWaits currentReconnectionTimeout
    shouldTryToReconnect].
  split; [done|]. rewrite Hw, <- app_assoc, Hc. destruct n as [|n].
  - unfold nextTimeout. split; do 2 f_equal; simpl; lia.
  - rewrite nextTimeout_iter. done.
Qed.

Lemma run_failures_stopped s n :
  shouldTryToReconnect s = false → run s (failures n) = s.
Proof.
  intros Hs. induction n as [|n IH]; [done|].
  rewrite failures_S, run_app, IH. simpl. unfold loopBody. by rewrite Hs.
Qed.

(** The loop is still meant to run exactly as long as [done] has not
    been called. *)
Lemma step_shouldTry s e :
  shouldTryToReconnect (step s e)
  = match e with Done => false | _ => shouldTryToReconnect s end.
Proof.
  destruct e as [|connected|]; simpl; [|unfold loopBody|done];
    destruct (shouldTryToReconnect s) eqn:Hs; simpl; try done.
  by destruct connected.
Qed.

Lemma run_shouldTry es s :
  shouldTryToReconnect (run s es) = true
  ↔ shouldTryToReconnect s = true ∧ Done ∉ es.
Proof.
  unfold run. revert s. induction es as [|e es IH]; intros s; simpl.
  { split; [intros Hs; split; [done|]; apply not_elem_of_nil | by intros [? _]]. }
  rewrite IH, not_elem_of_cons, step_shouldTry. split.
  - intros [Hs Hes]. by destruct e.
  - intros [Hs [He Hes]]. by destruct e.
Qed.

(** The wait before the attempt that follows [k] failed ones is the
    timeout current at that moment, doubled under the cap. *)
Lemma backoff_doubles s n k w :
  shouldTryToReconnect s = true →
  backoff (currentReconnectionTimeout s) n !! k = Some w →
  w = Z.min (currentReconnectionTimeout (run s (failures k)) * 2) 30000.
Proof.
  intros Hs Hk. destruct (run_failures s k Hs) as (_ & _ & ->).
  unfold backoff in Hk. apply list_lookup_fmap_Some in Hk as (i & -> & Hi).
  apply lookup_seq in Hi as [-> _]. simpl. destruct k as [|k].
  - simpl. lia.
  - symmetry. apply nextTimeout_iter.
Qed.


End ReconnectProps.



(** ** Session slots *)

Section SessionProps.
Import Session.

Variable available : nat → nat → bool.
Variables accountID nonce : string.
Variable ls : gmap string string.

Local Abbreviation retryLoop := (retryLoop available accountID nonce ls).
Local Abbreviation slotLoop := (slotLoop available accountID nonce ls).
Local Abbreviation key := (slotKey accountID).
Local Abbreviation twice := (twice accountID).
Local Abbreviation granted := (granted accountID nonce ls).

Lemma or_else_match v d :
  JS.or_else v d = match v with Some (String c s) => String c s | _ => d end.
Proof. done. Qed.

Lemma retryLoop_cases idx reqs :
  retryLoop 2 0 idx reqs
  = if available idx 0 then
      (reqs ++ [key idx], Some (granted idx (reqs ++ [key idx])))
    else if available idx 1 then
      (reqs ++ twice idx, Some (granted idx (reqs ++ twice idx)))
    else (reqs ++ twice idx, None).
Proof.
  unfold twice. simpl. destruct (available idx 0); [done|].
  rewrite <- !app_assoc. simpl. by destruct (available idx 1).
Qed.

Lemma slotLoop_all_fail n idx reqs :
  (∀ i q, (idx ≤ i < idx + n)%nat → (q < 2)%nat → available i q = false) →
  slotLoop n idx reqs
  = {| requested := reqs ++ flat_map twice (seq idx n); heldSlot := None;
       session := None; storage := ls;
       thrown := Some "Couldn't get lock on session after 100x2 tries" |}.
Proof.
  revert idx reqs. induction n as [|n IH]; intros idx reqs Hfail.
  { simpl. by rewrite app_nil_r. }
  cbn [Session.slotLoop]. rewrite retryLoop_cases.
  rewrite !Hfail by lia. rewrite IH.
  - simpl. by rewrite <- app_assoc.
  - intros i q ??. apply Hfail; lia.
Qed.

Lemma slotLoop_granted n idx reqs i q :
  (idx ≤ i < idx + n)%nat → (q < 2)%nat →
  available i q = true →
  (∀ j p, (idx ≤ j)%nat → (p < 2)%nat → before j p i q → available j p = false) →
  slotLoop n idx reqs
  = granted i (reqs ++ flat_map twice (seq idx (i - idx)) ++ repeat (key i) (S q)).
Proof.
  revert idx reqs. induction n as [|n IH]; intros idx reqs Hi Hq Hav Hfirst; [lia|].
  cbn [Session.slotLoop]. rewrite retryLoop_cases.
  destruct (decide (i = idx)) as [->|Hne].
  - replace (idx - idx)%nat with 0%nat by lia. simpl.
    destruct q as [|[|q]]; [| |lia].
    + by rewrite Hav.
    + rewrite (Hfirst idx 0%nat) by (unfold before; lia). by rewrite Hav.
  - rewrite !(Hfirst idx) by (unfold before; lia).
    rewrite (IH (S idx)); [|lia|done|done|].
    + replace (i - idx)%nat with (S (i - S idx)) by lia.
      simpl. by rewrite <- !app_assoc.
    + intros j p ???. apply Hfirst; [lia|done..].
Qed.

Lemma slotLoop_requests n idx reqs :
  ∃ more, requested (slotLoop n idx reqs) = reqs ++ more
          ∧ more `prefix_of` flat_map twice (seq idx n).
Proof.
  revert idx reqs. induction n as [|n IH]; intros idx reqs.
  { exists []. simpl. by rewrite app_nil_r. }
  cbn [Session.slotLoop]. rewrite retryLoop_cases.
  destruct (available idx 0).
  { exists [key idx]. split; [done|]. simpl. by exists (key idx :: flat_map twice (seq (S idx) n)). }
  destruct (available idx 1).
  { exists (twice idx). split; [done|]. simpl. by exists (flat_map twice (seq (S idx) n)). }
  destruct (IH (S idx) (reqs ++ twice idx)) as (more & Hreq & Hpre).
  exists (twice idx ++ more). split.
  - by rewrite Hreq, <- app_assoc.
  - simpl. by do 2 apply prefix_cons.
Qed.

Lemma slotLoop_held n idx reqs i :
  heldSlot (slotLoop n idx reqs) = Some i →
  ∃ reqs', slotLoop n idx reqs = granted i reqs'.
Proof.
  revert idx reqs. induction n as [|n IH]; intros idx reqs; [done|].
  cbn [Session.slotLoop]. rewrite retryLoop_cases.
  destruct (available idx 0); [intros [= <-]; eauto|].
  destruct (available idx 1); [intros [= <-]; eauto|].
  apply IH.
Qed.

Lemma newRandomSessionID_nonempty a n :
  ∃ c t, newRandomSessionID a n = String c t.
Proof. unfold newRandomSessionID. destruct a; simpl; eauto. Qed.

(** C5. [getSessionHandleFor] asks for the locks [accountID_0] to
    [accountID_99] in that order, each at most twice. At the first
    request that is granted it resolves the session with the nonce
    stored for that slot, or with a freshly minted session ID if the
    slot holds none, and keeps it in the slot; if none of the 200
    requests is granted it throws and resolves no session. *)
Theorem session_slot_search :
  let r := getSessionHandleFor available accountID nonce ls in
  requested r `prefix_of` allRequests accountID
  ∧ (∀ i q, (i < 100)%nat → (q < 2)%nat →
       available i q = true →
       (∀ j p, (p < 2)%nat → before j p i q → available j p = false) →
       requested r = flat_map twice (seq 0 i) ++ repeat (key i) (S q)
       ∧ heldSlot r = Some i
       ∧ session r = Some (match ls !! key i with
                           | Some (String c s) => String c s
                           | _ => newRandomSessionID accountID nonce
                           end)
       ∧ storage r !! key i = session r
       ∧ thrown r = None)
  ∧ ((∀ i q, (i < 100)%nat → (q < 2)%nat → available i q = false) →
       requested r = allRequests accountID
       ∧ session r = None
       ∧ storage r = ls
       ∧ thrown r = Some "Couldn't get lock on session after 100x2 tries").
Proof.
  cbv zeta. unfold getSessionHandleFor. split_and!.
  - destruct (slotLoop_requests 100 0 []) as (more & -> & Hpre). done.
  - intros i q Hi Hq Hav Hfirst.
    rewrite (slotLoop_granted 100 0 [] i q) by (try done; try lia; eauto).
    rewrite Nat.sub_0_r. cbn [Session.granted requested heldSlot session storage thrown].
    split_and!; try done. by rewrite lookup_insert_eq.
  - intros Hfail. rewrite slotLoop_all_fail by (intros; apply Hfail; lia). done.
Qed.

End SessionProps.

(** An instance of C5: slot 0 is taken by another tab, slot 1 is free
    and holds a session ID from an earlier run. *)
Lemma session_slot_search_witness :
  let r := Session.getSessionHandleFor (λ i _, bool_decide (i = 1%nat))
             "co_zAlice" "zFresh" {["co_zAlice_1" := "co_zAlice_session_zOld"]} in
  Session.requested r = ["co_zAlice_0"; "co_zAlice_0"; "co_zAlice_1"]
  ∧ Session.session r = Some "co_zAlice_session_zOld".
Proof.
  intros r.
  destruct (session_slot_search (λ i _, bool_decide (i = 1%nat))
              "co_zAlice" "zFresh" {["co_zAlice_1" := "co_zAlice_session_zOld"]})
    as (_ & Hgranted & _).
  destruct (Hgranted 1%nat 0%nat) as (Hreq & _ & Hsession & _).
  - lia.
  - lia.
  - reflexivity.
  - intros j p Hp [Hj|[_ Hq]]; [|lia]. apply bool_decide_eq_false. lia.
  - split; [exact Hreq|exact Hsession].
Defined.

Section SessionRestart.
Import Session.

Variables available available' : nat → nat → bool.
Variables accountID nonce nonce' : string.
Variable ls : gmap string string.

(** C6. Once [getSessionHandleFor] resolved a session ID at a slot, a
    later run over the storage it left behind that is granted the same
    slot resolves the same session ID, whatever the lock manager
    answers on the way and whatever nonce is drawn, and leaves the
    storage as it is. *)
Theorem session_stable_across_restarts (i : nat) (sid : string) :
  let r := getSessionHandleFor available accountID nonce ls in
  let r' := getSessionHandleFor available' accountID nonce' (storage r) in
  heldSlot r = Some i → session r = Some sid →
  heldSlot r' = Some i →
  session r' = Some sid ∧ storage r' = storage r.
Proof.
  cbv zeta. unfold getSessionHandleFor. intros Hheld Hsid Hheld'.
  apply slotLoop_held in Hheld as (reqs & Hr).
  apply slotLoop_held in Hheld' as (reqs' & Hr').
  rewrite Hr', Hr in *. clear Hr Hr'.
  cbn [Session.granted session storage] in *.
  injection Hsid as Hsid. rewrite Hsid, lookup_insert_eq, insert_insert_eq.
  assert (∃ c t, sid = String c t) as (c & t & ->); [|done].
  subst sid. destruct (ls !! slotKey accountID i) as [[|c t]|]; eauto;
    apply newRandomSessionID_nonempty.
Qed.

End SessionRestart.

(** An instance of C6: the first run finds slot 0 taken, mints a session
    in slot 1; the second run, with another nonce at hand, finds it. *)
Lemma session_stable_across_restarts_witness :
  let first := Session.getSessionHandleFor (λ i _, bool_decide (i = 1%nat))
                 "co_zAlice" "zFirst" ∅ in
  let second := Session.getSessionHandleFor (λ i q, bool_decide (i = 1 ∧ q = 1)%nat)
                  "co_zAlice" "zSecond" (Session.storage first) in
  Session.session second = Some "co_zAlice_session_zFirst"
  ∧ Session.storage second = Session.storage first.
Proof.
  apply (session_stable_across_restarts _ _ _ _ _ _ 1%nat); reflexivity.
Defined.

(** ** Blob ingestion *)

Section BinaryStreamProps.
Import BinaryStream.

Lemma slice_window data idx size :
  slice data idx (idx + size) = take size (drop idx data).
Proof. unfold slice. f_equal. lia. Qed.

(** With a positive chunk size and a pass for every byte left, the loop
    ends, and its pushes cut the rest of the data into consecutive
    non-empty pieces of at most that size. *)
Lemma chunkLoop_spec chunkSize data fuel idx :
  (0 < chunkSize)%nat → (length data - idx ≤ fuel)%nat →
  ∃ chunks,
    chunkLoop fuel chunkSize data idx = Some (pushBinaryStreamChunk <$> chunks)
    ∧ Forall (λ c, 0 < length c ≤ chunkSize)%nat chunks
    ∧ concat chunks = drop idx data.
Proof.
  intros Hpos. revert idx. induction fuel as [|fuel IH]; intros idx Hfuel.
  - exists []. simpl. rewrite decide_False by lia.
    split_and!; [done|constructor|]. by rewrite drop_ge by lia.
  - simpl. destruct (decide (idx < length data)%nat) as [Hlt|Hge].
    + destruct (IH (idx + chunkSize)%nat) as (chunks & -> & Hsize & Hcat); [lia|].
      exists (slice data idx (idx + chunkSize) :: chunks). split_and!.
      * done.
      * constructor; [|done]. rewrite slice_window, length_take, length_drop. lia.
      * simpl. rewrite Hcat, slice_window, <- drop_drop. apply take_drop.
    + exists []. split_and!; [done|constructor|]. by rewrite drop_ge by lia.
Qed.

(** C7. For every blob, [createBinaryStreamFromBlob] returns after
    having started the stream with the blob's type, its size and, for a
    file, its name, pushed the blob's bytes as consecutive chunks of at
    most [MAX_RECOMMENDED_TX_SIZE] bytes each, and ended the stream. *)
Theorem blob_chunks (blob : Blob) :
  ∃ chunks,
    createBinaryStreamFromBlob blob
    = Some (startBinaryStream {| mimeType := blobType blob;
                                 totalSizeBytes := blobSize blob;
                                 startFileName := fileName blob |}
            :: (pushBinaryStreamChunk <$> chunks) ++ [endBinaryStream])
    ∧ Forall (λ c, 0 < length c ≤ MAX_RECOMMENDED_TX_SIZE)%nat chunks
    ∧ concat chunks = blobData blob.
Proof.
  unfold createBinaryStreamFromBlob, onload, blobSize.
  destruct (chunkLoop_spec MAX_RECOMMENDED_TX_SIZE (blobData blob)
              (length (blobData blob)) 0) as (chunks & -> & Hsize & Hcat).
  - unfold MAX_RECOMMENDED_TX_SIZE. lia.
  - lia.
  - exists chunks. split_and!; done.
Qed.

End BinaryStreamProps.

(** ** The idle timer of the incoming WebSocket stream *)

Section WsStreamProps.
Import JSON WsStream.

Variable JSON_parse : string → option Json.

Local Abbreviation onmessage := (onmessage JSON_parse).
Local Abbreviation run := (run JSON_parse).
Local Abbreviation step := (step JSON_parse).
Local Abbreviation parsed := (parsed JSON_parse).
Local Abbreviation parsedTimes := (parsedTimes JSON_parse).
Local Abbreviation isRecord := (isRecord JSON_parse).

(** Whatever the state, a message that parses re-arms the timer: the
    handle in [pingTimeout] is cleared and a new one is due 2500 ms
    after the message. *)
Lemma onmessage_rearms now data msg s :
  JSON_parse data = Some msg →
  let s' := (onmessage now data s).1 in
  pingTimeout s' = Some (nextTimer s)
  ∧ timers s'
    = <[nextTimer s := now + 2500]>
        match pingTimeout s with
        | Some (S h) => delete (S h) (timers s)
        | _ => timers s
        end.
Proof.
  intros Hparse. unfold WsStream.onmessage. rewrite Hparse.
  set (s1 := match pingTimeout s with Some (S _) => clearPingTimeout s | _ => s end).
  assert (nextTimer s1 = nextTimer s ∧ controller s1 = controller s
          ∧ timers s1 = match pingTimeout s with
                        | Some (S h) => delete (S h) (timers s)
                        | _ => timers s
                        end) as (Hn & Hc & Ht).
  { unfold s1. destruct (pingTimeout s) as [[|h]|] eqn:Hp; try done.
    unfold clearPingTimeout. simpl. by rewrite Hp. }
  destruct (getType msg) as [ty|e]; simpl.
  - destruct (strictEqStr ty "ping"); simpl; [by rewrite Hn, Ht|].
    unfold controllerEnqueue. simpl.
    destruct (controller s1); simpl; by rewrite Hn, Ht.
  - by rewrite Hn, Ht.
Qed.

(** On an open stream a record is handled without an error; the timer
    is re-armed, and the record reaches the consumer unless it is a
    ping. *)
Lemma onmessage_open last now data props s :
  openSince last s →
  JSON_parse data = Some (JObj props) →
  (onmessage now data s).2 = None
  ∧ openSince (Some now) (onmessage now data s).1
  ∧ enqueued (onmessage now data s).1
    = enqueued s ++ (if isPing (JObj props) then [] else [JObj props]).
Proof.
  intros (Hc & Hw & Hn & Hlast) Hparse.
  destruct (onmessage_rearms now data _ s Hparse) as (Hp' & Ht').
  assert (timers (onmessage now data s).1 = {[nextTimer s := now + idleTimeout]})
    as Htimers.
  { rewrite Ht'. destruct last as [t|].
    - destruct Hlast as (h & Hh & -> & ->). destruct h as [|h]; [lia|].
      by rewrite delete_singleton_eq, insert_empty.
    - destruct Hlast as (-> & ->). by rewrite insert_empty. }
  revert Hp' Htimers. clear Ht'. unfold WsStream.onmessage. rewrite Hparse.
  set (s1 := match pingTimeout s with Some (S _) => clearPingTimeout s | _ => s end).
  assert (controller s1 = Readable ∧ ws s1 = Open ∧ enqueued s1 = enqueued s
          ∧ nextTimer s1 = nextTimer s) as (Hc1 & Hw1 & He1 & Hn1).
  { unfold s1. by destruct (pingTimeout s) as [[|h]|]. }
  unfold isPing. cbn [getType].
  destruct (strictEqStr (lookup "type" props) "ping"); simpl.
  - intros Hp' Htimers. rewrite app_nil_r.
    split_and!; [done| |done]. unfold openSince. simpl.
    split_and!; [done|done|lia|]. exists (nextTimer s1).
    rewrite Htimers, Hn1. split_and!; [lia|done..].
  - unfold controllerEnqueue. simpl. rewrite Hc1. simpl. intros Hp' Htimers.
    split_and!; [done| |by rewrite He1]. unfold openSince. simpl.
    split_and!; [done|done|lia|]. exists (nextTimer s1).
    rewrite Htimers, Hn1. split_and!; [lia|done..].
Qed.

(** In any state a ping is taken without an error and changes
    neither what the consumer was handed nor the stream or the
    socket. *)
Lemma onmessage_ping now data msg s :
  JSON_parse data = Some msg → isPing msg = true →
  (onmessage now data s).2 = None
  ∧ enqueued (onmessage now data s).1 = enqueued s
  ∧ controller (onmessage now data s).1 = controller s
  ∧ ws (onmessage now data s).1 = ws s.
Proof.
  intros Hparse Hping. unfold WsStream.onmessage. rewrite Hparse.
  unfold isPing in Hping. destruct (getType msg) as [ty|e]; [|done].
  rewrite Hping. simpl. by destruct (pingTimeout s) as [[|h]|].
Qed.

(** While the stream is readable, a parsed message other than a ping
    and other than [null] is handed to the consumer. *)
Lemma onmessage_enqueues now data msg s :
  JSON_parse data = Some msg → isPing msg = false → msg ≠ JNull →
  controller s = Readable →
  (onmessage now data s).2 = None
  ∧ enqueued (onmessage now data s).1 = enqueued s ++ [msg]
  ∧ controller (onmessage now data s).1 = Readable.
Proof.
  intros Hparse Hping Hnull Hc. unfold WsStream.onmessage. rewrite Hparse.
  unfold isPing in Hping. destruct (getType msg) as [ty|e] eqn:Hty.
  - rewrite Hping. unfold controllerEnqueue. simpl.
    by destruct (pingTimeout s) as [[|h]|]; simpl; rewrite Hc.
  - by destruct msg.
Qed.

(** A message leaves the controller and the socket as they are. *)
Lemma onmessage_keeps now data s :
  controller (onmessage now data s).1 = controller s
  ∧ ws (onmessage now data s).1 = ws s.
Proof.
  unfold WsStream.onmessage. destruct (JSON_parse data) as [msg|]; [|done].
  set (s1 := match pingTimeout s with Some (S _) => clearPingTimeout s | _ => s end).
  assert (controller s1 = controller s ∧ ws s1 = ws s) as [Hc Hw].
  { unfold s1. by destruct (pingTimeout s) as [[|h]|]. }
  destruct (getType msg) as [ty|e]; simpl; [|done].
  destruct (strictEqStr ty "ping"); simpl; [done|].
  unfold controllerEnqueue. simpl. rewrite Hc.
  destruct (controller s) eqn:Hcs; simpl; by rewrite ?Hc, ?Hcs.
Qed.

(** A timer that is due on a readable stream closes the controller and
    the socket, and is gone. *)
Lemma fire_closes now h deadline s :
  timers s !! h = Some deadline → deadline ≤ now → controller s = Readable →
  controller (fire now h s) = Closed
  ∧ ws (fire now h s) ≠ Open
  ∧ timers (fire now h s) = delete h (timers s)
  ∧ enqueued (fire now h s) = enqueued s.
Proof.
  intros Hh Hdue Hc. unfold fire. rewrite Hh, decide_True by done.
  unfold onPingTimeout, controllerClose. simpl. rewrite Hc. simpl.
  split_and!; try done. by destruct (ws s).
Qed.

Lemma run_snoc s es e : run s (es ++ [e]) = step (run s es) e.
Proof. unfold WsStream.run. by rewrite fold_left_app. Qed.

Lemma messages_snoc msgs m :
  messages (msgs ++ [m]) = messages msgs ++ [Message m.1 m.2].
Proof. unfold messages. by rewrite map_app. Qed.

(** A run of records from the start keeps the stream open, with the
    timer of the last record pending and the records other than pings
    enqueued in order. *)
Lemma run_messages msgs :
  Forall (λ m, isRecord m.2) msgs →
  let s := run start (messages msgs) in
  openSince (fst <$> last msgs) s
  ∧ enqueued s = List.filter (λ m, negb (isPing m)) (parsed msgs).
Proof.
  induction msgs as [|[now data] msgs IH] using rev_ind; intros Hrec.
  { simpl. split; [|done]. split_and!; try done. simpl. lia. }
  apply Forall_app in Hrec as (Hrec & [(props & Hparse) _]%Forall_cons_1).
  destruct (IH Hrec) as (Hopen & Henq). cbv zeta.
  rewrite messages_snoc, run_snoc, last_snoc. simpl in *.
  destruct (onmessage_open _ now data props _ Hopen Hparse) as (_ & Hopen' & Henq').
  split; [done|]. unfold WsStream.parsed in *.
  rewrite Henq', Henq, omap_app, List.filter_app. f_equal.
  simpl. rewrite Hparse. simpl. by destruct (isPing (JObj props)).
Qed.

(** Whatever the frame, an open stream stays open: a frame that parses
    re-arms the timer and, unless it is a ping or [null], reaches the
    consumer; a frame that does not parse changes nothing. *)
Lemma onmessage_any last now data s :
  openSince last s →
  openSince (match JSON_parse data with Some _ => Some now | None => last end)
    (onmessage now data s).1
  ∧ enqueued (onmessage now data s).1
    = enqueued s ++ match JSON_parse data with
                    | Some msg => if isPing msg || isNull msg then [] else [msg]
                    | None => []
                    end.
Proof.
  intros Hopen. destruct (JSON_parse data) as [msg|] eqn:Hparse.
  2: { unfold WsStream.onmessage. rewrite Hparse. simpl. by rewrite app_nil_r. }
  pose proof Hopen as (Hc & Hw & Hn & Hlast).
  destruct (onmessage_rearms now data msg s Hparse) as (Hp' & Ht').
  destruct (onmessage_keeps now data s) as (Hc' & Hw').
  assert (nextTimer (onmessage now data s).1 = S (nextTimer s)) as Hn'.
  { unfold WsStream.onmessage. rewrite Hparse.
    set (s1 := match pingTimeout s with Some (S _) => clearPingTimeout s | _ => s end).
    assert (nextTimer s1 = nextTimer s) as Hn1.
    { unfold s1. by destruct (pingTimeout s) as [[|h]|]. }
    destruct (getType msg) as [ty|e]; simpl; [|by rewrite Hn1].
    destruct (strictEqStr ty "ping"); simpl; [by rewrite Hn1|].
    unfold controllerEnqueue. simpl. destruct (controller s1); simpl; by rewrite Hn1. }
  split.
  - unfold openSince. rewrite Hc', Hw', Hn'. split_and!; [done|done|lia|].
    exists (nextTimer s). split_and!; [lia|done|]. rewrite Ht'.
    destruct last as [t|].
    + destruct Hlast as (h & Hh & -> & ->). destruct h as [|h]; [lia|].
      by rewrite delete_singleton_eq, insert_empty.
    + destruct Hlast as (-> & ->). by rewrite insert_empty.
  - destruct (isPing msg) eqn:Hping; simpl.
    { destruct (onmessage_ping now data msg s Hparse Hping) as (_ & -> & _).
      by rewrite app_nil_r. }
    destruct msg as [| | | | |props] eqn:Hmsg; simpl;
      try (by destruct (onmessage_enqueues now data _ s Hparse Hping) as (_ & -> & _)).
    unfold WsStream.onmessage. rewrite Hparse. simpl. rewrite app_nil_r.
    by destruct (pingTimeout s) as [[|h]|].
Qed.

(** A run of frames from the start keeps the stream open, with the
    timer of the last frame that parsed pending and the parsed messages
    other than pings and [null] enqueued in order. *)
Lemma run_frames msgs :
  let s := run start (messages msgs) in
  openSince (last (parsedTimes msgs)) s
  ∧ enqueued s = List.filter (λ m, negb (isPing m || isNull m)) (parsed msgs).
Proof.
  induction msgs as [|[now data] msgs (Hopen & Henq)] using rev_ind.
  { simpl. split; [|done]. split_and!; try done. simpl. lia. }
  cbv zeta in *. rewrite messages_snoc, run_snoc. simpl.
  destruct (onmessage_any _ now data _ Hopen) as (Hopen' & Henq').
  unfold WsStream.parsedTimes, WsStream.parsed in *.
  rewrite !omap_app, List.filter_app. simpl. split.
  - destruct (JSON_parse data); simpl; [by rewrite last_snoc|by rewrite app_nil_r].
  - rewrite Henq', Henq. f_equal. destruct (JSON_parse data) as [msg|]; [|done].
    simpl. by destruct (isPing msg || isNull msg).
Qed.

(** While the socket is open the stream is readable: every way the
    code closes or errors the controller comes with the socket leaving
    the open state. *)
Lemma step_open_readable s e :
  (ws s = Open → controller s = Readable) →
  ws (step s e) = Open → controller (step s e) = Readable.
Proof.
  intros Hinv. destruct e as [now data|now h| | |]; simpl.
  - destruct (onmessage_keeps now data s) as [-> ->]. done.
  - unfold fire. destruct (timers s !! h) as [deadline|]; [|done].
    destruct (decide (deadline ≤ now)); [|done].
    unfold onPingTimeout, controllerClose, wsClose. simpl.
    destruct (controller s) eqn:Hc; simpl; rewrite ?Hc;
      first [done | by destruct (ws s) | by intros Hw; specialize (Hinv Hw)].
  - unfold socketDown. destruct (closeListening s); simpl; [|done].
    unfold closeListener, controllerClose. simpl. by destruct (controller s).
  - unfold errorListener, controllerError, socketDown. simpl.
    by destruct (controller s).
  - destruct (controller s) eqn:Hc; simpl; rewrite ?Hc; try done.
    unfold wsClose. simpl. by destruct (ws s).
Qed.

Lemma run_open_readable es :
  ws (run start es) = Open → controller (run start es) = Readable.
Proof.
  induction es as [|e es IH] using rev_ind; [done|].
  rewrite run_snoc. by apply step_open_readable.
Qed.


End WsStreamProps.



(** ** Strings, fragments and splitting *)

(** Unfold appends on strings that start with a known character. *)
Ltac ssimpl :=
  repeat (progress (change (String.append EmptyString ?b) with b
                    || change (String.append (String ?x ?a) ?b)
                         with (String x (String.append a b))
                    || simpl)).

Section StringFacts.
Import URL Invite.

Lemma append_nil_l (b : string) : "" +:+ b = b.
Proof. done. Qed.

Lemma append_cons x (a b : string) : String x a +:+ b = String x (a +:+ b).
Proof. done. Qed.

Lemma append_assoc (a b c : string) : (a +:+ b) +:+ c = a +:+ (b +:+ c).
Proof. induction a as [|x a IH]; ssimpl; [done|]. by rewrite IH. Qed.

Lemma append_nil_r (a : string) : a +:+ "" = a.
Proof. induction a as [|x a IH]; ssimpl; [done|]. by rewrite IH. Qed.

Lemma append_nonempty (a b : string) : b ≠ "" → a +:+ b ≠ "".
Proof. by destruct a. Qed.

Lemma occurs_app c (a b : string) : occurs c (a +:+ b) = occurs c a || occurs c b.
Proof.
  induction a as [|x a IH]; ssimpl; [done|]. rewrite IH. by destruct (bool_decide (x = c)).
Qed.

Lemma unreserved_app (a b : string) :
  unreserved (a +:+ b) = unreserved a && unreserved b.
Proof.
  induction a as [|x a IH]; ssimpl; [done|]. rewrite IH.
  by destruct (inFragmentPercentEncodeSet x).
Qed.

Lemma unreserved_not_space c :
  inFragmentPercentEncodeSet c = false → isC0OrSpace c = false.
Proof.
  unfold inFragmentPercentEncodeSet, isC0OrSpace.
  intros H%bool_decide_eq_false. apply bool_decide_eq_false. lia.
Qed.

Lemma unreserved_not_tab c :
  inFragmentPercentEncodeSet c = false → isTabOrNewline c = false.
Proof.
  unfold inFragmentPercentEncodeSet, isTabOrNewline.
  intros H%bool_decide_eq_false. apply bool_decide_eq_false. lia.
Qed.

(** The serialiser and the input clean-up leave an unreserved string
    alone. *)
Lemma encodeFragment_unreserved s : unreserved s = true → encodeFragment s = s.
Proof.
  induction s as [|c s IH]; ssimpl; [done|].
  destruct (inFragmentPercentEncodeSet c); ssimpl; [done|]. intros H. by rewrite IH.
Qed.

Lemma removeTabNewline_unreserved s :
  unreserved s = true → removeTabNewline s = s.
Proof.
  induction s as [|c s IH]; ssimpl; [done|].
  destruct (inFragmentPercentEncodeSet c) eqn:Hc; ssimpl; [done|].
  intros H. by rewrite (unreserved_not_tab c Hc), IH.
Qed.

Lemma dropTrailing_unreserved s : unreserved s = true → dropTrailing s = s.
Proof.
  induction s as [|c s IH]; ssimpl; [done|].
  destruct (inFragmentPercentEncodeSet c) eqn:Hc; ssimpl; [done|].
  intros H. rewrite (IH H). destruct s; [|done].
  by rewrite (unreserved_not_space c Hc).
Qed.

Lemma removeTabNewline_app a b :
  removeTabNewline (a +:+ b) = removeTabNewline a +:+ removeTabNewline b.
Proof.
  induction a as [|c a IH]; ssimpl; [done|]. rewrite IH.
  by destruct (isTabOrNewline c).
Qed.

Lemma dropTrailing_app a b :
  b ≠ "" → dropTrailing b = b → dropTrailing (a +:+ b) = a +:+ b.
Proof.
  intros Hb Hdrop. induction a as [|c a IH]; ssimpl; [done|].
  rewrite IH. by destruct (a +:+ b) eqn:Hab; [apply append_nonempty in Hab|].
Qed.

Lemma dropLeading_hash a b :
  dropLeading (a +:+ String "#" b) = dropLeading a +:+ String "#" b.
Proof.
  induction a as [|c a IH]; ssimpl; [done|]. by destruct (isC0OrSpace c).
Qed.

Lemma occurs_dropLeading c a : occurs c a = false → occurs c (dropLeading a) = false.
Proof.
  induction a as [|x a IH]; ssimpl; [done|].
  intros [? ?]%orb_false_elim. destruct (isC0OrSpace x); ssimpl; [auto|].
  by apply orb_false_intro.
Qed.

Lemma occurs_removeTabNewline c a :
  occurs c a = false → occurs c (removeTabNewline a) = false.
Proof.
  induction a as [|x a IH]; ssimpl; [done|].
  intros [? ?]%orb_false_elim. destruct (isTabOrNewline x); ssimpl; [auto|].
  apply orb_false_intro; auto.
Qed.

Lemma splitFragment_hash a b :
  occurs "#" a = false → splitFragment (a +:+ String "#" b) = (a, Some b).
Proof.
  induction a as [|c a IH]; ssimpl; [done|].
  intros [Hc Ha]%orb_false_elim. apply bool_decide_eq_false in Hc.
  rewrite decide_False by done. by rewrite IH.
Qed.

(** The hash of [base#fragment], for an unreserved, non-empty fragment
    and a base free of [#] that the parser accepts after clean-up. *)
Lemma hash_of_link parses base frag :
  occurs "#" base = false → unreserved frag = true → frag ≠ "" →
  URL.hash parses (base +:+ String "#" frag)
  = if parses (removeTabNewline (dropLeading base))
    then JS.Ok (String "#" frag)
    else JS.Throws "TypeError: Invalid URL".
Proof.
  intros Hbase Hfrag Hne. unfold URL.hash, preprocess.
  rewrite dropLeading_hash, dropTrailing_app; first last.
  { ssimpl. rewrite (dropTrailing_unreserved frag Hfrag). by destruct frag. }
  { done. }
  rewrite removeTabNewline_app. ssimpl. rewrite (removeTabNewline_unreserved _ Hfrag).
  rewrite splitFragment_hash
    by (by apply occurs_removeTabNewline, occurs_dropLeading).
  rewrite encodeFragment_unreserved by done. by destruct frag.
Qed.

Lemma split_nonempty sep s : split sep s ≠ [].
Proof.
  destruct s as [|c s]; ssimpl; [done|].
  destruct (decide (c = sep)); [done|]. by destruct (split sep s).
Qed.

Lemma split_no_sep sep s : occurs sep s = false → split sep s = [s].
Proof.
  induction s as [|c s IH]; ssimpl; [done|].
  intros [Hc Hs]%orb_false_elim. apply bool_decide_eq_false in Hc.
  rewrite decide_False by done. by rewrite IH.
Qed.

Lemma split_app sep a b :
  occurs sep a = false → split sep (a +:+ String sep b) = a :: split sep b.
Proof.
  induction a as [|c a IH]; ssimpl.
  - intros _. by rewrite decide_True.
  - intros [Hc Ha]%orb_false_elim. apply bool_decide_eq_false in Hc.
    rewrite decide_False by done. by rewrite IH.
Qed.

(** Joining the parts with the separator gives the string back. *)
Lemma concat_split sep s : String.concat (String sep "") (split sep s) = s.
Proof.
  induction s as [|c s IH]; [done|].
  pose proof (split_nonempty sep s) as Hne. cbn [split].
  destruct (split sep s) as [|p ps]; [done|]. rewrite <- IH.
  destruct (decide (c = sep)) as [->|_]; [done|]. by destruct ps.
Qed.

End StringFacts.

(** ** Invite links *)

Section InviteProps.
Import URL Invite.

Variable createInvite : CoValueCore → Role → string.
Variable href : string.
Variable parses : string → bool.

Local Abbreviation createInviteLink := (createInviteLink createInvite href).
Local Abbreviation parseInviteLink := (parseInviteLink parses).

Lemma parseHash_with_hint hint vid secret :
  occurs "/" hint = false → occurs "/" vid = false → occurs "/" secret = false →
  parseHash ("#/invite/" +:+ hint +:+ "/" +:+ vid +:+ "/" +:+ secret)
  = if JS.truthy (Some vid) && JS.truthy (Some secret)
    then Some {| valueID := vid; inviteSecret := secret; valueHint := Some hint |}
    else None.
Proof.
  intros Hh Hv Hs. unfold parseHash.
  change ("#/invite/" +:+ hint +:+ "/" +:+ vid +:+ "/" +:+ secret)
    with ("#" +:+ String "/" ("invite" +:+ String "/"
            (hint +:+ String "/" (vid +:+ String "/" secret)))).
  rewrite !split_app, (split_no_sep _ secret) by done. simpl.
  by destruct vid, secret.
Qed.

Lemma parseHash_without_hint vid secret :
  occurs "/" vid = false → occurs "/" secret = false →
  parseHash ("#/invite/" +:+ vid +:+ "/" +:+ secret)
  = if JS.truthy (Some vid) && JS.truthy (Some secret)
    then Some {| valueID := vid; inviteSecret := secret; valueHint := None |}
    else None.
Proof.
  intros Hv Hs. unfold parseHash.
  change ("#/invite/" +:+ vid +:+ "/" +:+ secret)
    with ("#" +:+ String "/" ("invite" +:+ String "/" (vid +:+ String "/" secret))).
  rewrite !split_app, (split_no_sep _ secret) by done. simpl.
  by destruct vid, secret.
Qed.

Lemma parseHash_other hash :
  String.prefix "#/invite" hash = false
  ∨ (length (split "/" hash) ≠ 4 ∧ length (split "/" hash) ≠ 5)%nat →
  parseHash hash = None.
Proof.
  intros Hother. unfold parseHash.
  pose proof (concat_split "/" hash) as Hjoin.
  destruct (split "/" hash) as [|p0 [|p1 parts]] eqn:Hparts; [done| |].
  { cbn [lookup list_lookup]. by rewrite andb_false_r. }
  cbn [lookup list_lookup].
  destruct (bool_decide_reflect (Some p0 = Some "#")) as [[= ->]|]; [|done].
  destruct (bool_decide_reflect (Some p1 = Some "invite")) as [[= ->]|]; [|done].
  cbn [andb]. destruct Hother as [Hprefix|[H4 H5]].
  - rewrite <- Hjoin in Hprefix. by destruct parts.
  - rewrite !decide_False by done. done.
Qed.

(** C3, as the code has it. For a URL whose fragment is
    [#/invite/<valueHint>/<valueID>/<inviteSecret>] or
    [#/invite/<valueID>/<inviteSecret>], the parts being free of
    slashes, [parseInviteLink] returns the value ID and the invite
    secret, with the hint exactly in the first form, provided the value
    ID and the invite secret are not empty; if one of them is empty it
    returns [undefined]. For a URL whose fragment does not start with
    [#/invite], or splits into a number of parts other than 4 and 5, it
    returns [undefined]. *)
Theorem parseInviteLink_forms (inviteURL hash : string) :
  URL.hash parses inviteURL = JS.Ok hash →
  (∀ hint vid secret,
     occurs "/" hint = false → occurs "/" vid = false → occurs "/" secret = false →
     hash = "#/invite/" +:+ hint +:+ "/" +:+ vid +:+ "/" +:+ secret →
     length (split "/" hash) = 5%nat
     ∧ parseInviteLink inviteURL
       = JS.Ok (if bool_decide (vid ≠ "" ∧ secret ≠ "")
                then Some {| valueID := vid; inviteSecret := secret;
                             valueHint := Some hint |}
                else None))
  ∧ (∀ vid secret,
       occurs "/" vid = false → occurs "/" secret = false →
       hash = "#/invite/" +:+ vid +:+ "/" +:+ secret →
       length (split "/" hash) = 4%nat
       ∧ parseInviteLink inviteURL
         = JS.Ok (if bool_decide (vid ≠ "" ∧ secret ≠ "")
                  then Some {| valueID := vid; inviteSecret := secret;
                               valueHint := None |}
                  else None))
  ∧ (String.prefix "#/invite" hash = false
     ∨ (length (split "/" hash) ≠ 4 ∧ length (split "/" hash) ≠ 5)%nat →
     parseInviteLink inviteURL = JS.Ok None).
Proof.
  intros Hhash. unfold Invite.parseInviteLink. rewrite Hhash. split_and!.
  - intros hint vid secret Hh Hv Hs ->. split.
    + change ("#/invite/" +:+ hint +:+ "/" +:+ vid +:+ "/" +:+ secret)
        with ("#" +:+ String "/" ("invite" +:+ String "/"
                (hint +:+ String "/" (vid +:+ String "/" secret)))).
      by rewrite !split_app, (split_no_sep _ secret) by done.
    + rewrite parseHash_with_hint by done. f_equal.
      destruct vid, secret; simpl; try done; by rewrite bool_decide_false by naive_solver.
  - intros vid secret Hv Hs ->. split.
    + change ("#/invite/" +:+ vid +:+ "/" +:+ secret)
        with ("#" +:+ String "/" ("invite" +:+ String "/" (vid +:+ String "/" secret))).
      by rewrite !split_app, (split_no_sep _ secret) by done.
    + rewrite parseHash_without_hint by done. f_equal.
      destruct vid, secret; simpl; try done; by rewrite bool_decide_false by naive_solver.
  - intros Hother. by rewrite parseHash_other.
Qed.

Lemma occurs_withoutHash s : occurs "#" (withoutHash s) = false.
Proof.
  unfold withoutHash. induction s as [|c s IH]; [done|]. cbn [splitFragment].
  destruct (decide (c = "#"%char)) as [|Hne]; [done|].
  destruct (splitFragment s) as [pre frag]. simpl in *.
  by rewrite IH, bool_decide_false.
Qed.

Lemma plain_inv s :
  plain s = true →
  (∃ c t, s = String c t) ∧ occurs "/" s = false ∧ unreserved s = true.
Proof.
  unfold plain. intros [[Hne Hslash]%andb_prop Hun]%andb_prop.
  split_and!; [|by destruct (occurs "/" s)|done]. destruct s; [done|eauto].
Qed.

(** C4, as the code has it. Take a covalue that leads to a group, a
    role, a base URL without [#] (or none, for the page's own address)
    and a hint; let the ID, the invite secret and the hint, if it is
    not empty, be free of slashes and of characters that the fragment
    of a URL does not keep as written. If the link [createInviteLink]
    builds is a valid URL, [parseInviteLink] reads from it the
    covalue's ID, the invite secret that was embedded, and the hint, if
    one was given and is not empty; without a hint, or with an empty
    one, it reads no hint. *)
Theorem invite_link_roundtrip (value : CoValue) (role : Role)
    (baseURL valueHint : option string) (link : string) :
  (∀ b, baseURL = Some b → occurs "#" b = false) →
  (∀ h, valueHint = Some h → h ≠ "" → occurs "/" h = false ∧ unreserved h = true) →
  plain (id value) = true →
  plain (createInvite (owningCore (core value)) role) = true →
  createInviteLink value role baseURL valueHint = JS.Ok link →
  (∃ hash, URL.hash parses link = JS.Ok hash) →
  parseInviteLink link
  = JS.Ok (Some {| valueID := id value;
                   inviteSecret := createInvite (owningCore (core value)) role;
                   valueHint := match valueHint with
                                | Some (String c h) => Some (String c h)
                                | _ => None
                                end |}).
Proof.
  intros Hbase Hhint (Hid & Hid_slash & Hid_un)%plain_inv
    (Hsec & Hsec_slash & Hsec_un)%plain_inv.
  unfold Invite.createInviteLink, Invite.parseInviteLink.
  set (secret := createInvite (owningCore (core value)) role) in *.
  set (base := default (withoutHash href) baseURL).
  assert (occurs "#" base = false) as Hb.
  { unfold base. destruct baseURL; simpl; [auto|apply occurs_withoutHash]. }
  destruct (rulesetOf (owningCore (core value))); try done.
  intros [= <-] (hash & Hhash).
  set (prefix := if JS.truthy valueHint then default "" valueHint +:+ "/" else "") in *.
  assert (unreserved prefix = true) as Hpre.
  { unfold prefix. destruct valueHint as [[|c h]|]; try done.
    change (unreserved (String c h +:+ "/") = true).
    destruct (Hhint _ eq_refl) as [_ Hun]; [done|].
    by rewrite unreserved_app, Hun. }
  revert Hhash.
  change (base +:+ "#/invite/" +:+ prefix +:+ id value +:+ "/" +:+ secret)
    with (base +:+ String "#"
            ("/invite/" +:+ prefix +:+ id value +:+ "/" +:+ secret)).
  rewrite hash_of_link; [|done| |].
  - destruct (parses _); [|done]. intros _. f_equal.
    unfold prefix. destruct valueHint as [[|c h]|].
    + match goal with
      | |- parseHash _ = ?r =>
          change (parseHash ("#/invite/" +:+ id value +:+ "/" +:+ secret) = r)
      end.
      rewrite (parseHash_without_hint (id value) secret) by done.
      destruct Hid as (? & ? & ->), Hsec as (? & ? & ->). done.
    + destruct (Hhint _ eq_refl) as [Hslash _]; [done|].
      match goal with
      | |- parseHash _ = ?r =>
          change (parseHash ("#/invite/" +:+ (String c h +:+ "/")
                             +:+ id value +:+ "/" +:+ secret) = r)
      end.
      rewrite (append_assoc (String c h) "/").
      rewrite (parseHash_with_hint (String c h) (id value) secret) by done.
      destruct Hid as (? & ? & ->), Hsec as (? & ? & ->). done.
    + match goal with
      | |- parseHash _ = ?r =>
          change (parseHash ("#/invite/" +:+ id value +:+ "/" +:+ secret) = r)
      end.
      rewrite (parseHash_without_hint (id value) secret) by done.
      destruct Hid as (? & ? & ->), Hsec as (? & ? & ->). done.
  - change ("/invite/" +:+ prefix +:+ id value +:+ "/" +:+ secret)
      with ("/invite/" +:+ (prefix +:+ (id value +:+ ("/" +:+ secret)))).
    rewrite !unreserved_app, Hpre, Hid_un, Hsec_un. done.
  - done.
Qed.

End InviteProps.

(** An instance of C3: a link without a hint. *)
Lemma parseInviteLink_forms_witness :
  Invite.parseInviteLink URL.parsesHttps
    "https://example.com/#/invite/co_zValue/inviteSecret_zSecret"
  = JS.Ok (Some {| Invite.valueID := "co_zValue";
                   Invite.inviteSecret := "inviteSecret_zSecret";
                   Invite.valueHint := None |}).
Proof.
  destruct (parseInviteLink_forms URL.parsesHttps
              "https://example.com/#/invite/co_zValue/inviteSecret_zSecret"
              "#/invite/co_zValue/inviteSecret_zSecret") as (_ & Hfour & _).
  { vm_compute. reflexivity. }
  apply (Hfour "co_zValue" "inviteSecret_zSecret"); vm_compute; reflexivity.
Defined.

(** Where C3 as stated fails: the fragment [#/invite//inviteSecret_zSecret]
    splits into four parts and starts with [#/invite], and a link with
    the form of a hinted one may end in a slash; the value ID, or the
    secret, is then empty and the parser returns [undefined] where the
    claim has it return the parts. *)
Lemma parseInviteLink_empty_part_counterexample :
  URL.hash URL.parsesHttps "https://example.com/#/invite//inviteSecret_zSecret"
  = JS.Ok ("#/invite/" +:+ "" +:+ "/" +:+ "inviteSecret_zSecret")
  ∧ Invite.split "/" "#/invite//inviteSecret_zSecret"
    = ["#"; "invite"; ""; "inviteSecret_zSecret"]
  ∧ Invite.parseInviteLink URL.parsesHttps
      "https://example.com/#/invite//inviteSecret_zSecret" = JS.Ok None
  ∧ Invite.parseInviteLink URL.parsesHttps
      "https://example.com/#/invite//inviteSecret_zSecret"
    ≠ JS.Ok (Some {| Invite.valueID := "";
                     Invite.inviteSecret := "inviteSecret_zSecret";
                     Invite.valueHint := None |})
  ∧ length (Invite.split "/" "#/invite/hint/co_zValue/") = 5%nat
  ∧ Invite.parseInviteLink URL.parsesHttps
      "https://example.com/#/invite/hint/co_zValue/" = JS.Ok None.
Proof. split_and!; try (vm_compute; reflexivity). vm_compute. discriminate. Qed.

(** An instance of C4: a hinted link for a covalue owned by a group. *)
Lemma invite_link_roundtrip_witness :
  let value := {| Invite.id := "co_zValue";
                  Invite.core := Invite.mkCore "co_zValue"
                                   (Invite.ownedByGroup
                                      (Invite.mkCore "co_zGroup" Invite.group)) |} in
  Invite.parseInviteLink URL.parsesHttps
    "https://example.com/app#/invite/notes/co_zValue/inviteSecret_zSecret"
  = JS.Ok (Some {| Invite.valueID := "co_zValue";
                   Invite.inviteSecret := "inviteSecret_zSecret";
                   Invite.valueHint := Some "notes" |}).
Proof.
  intros value.
  apply (invite_link_roundtrip (λ _ _, "inviteSecret_zSecret") "" URL.parsesHttps
           value Invite.writer (Some "https://example.com/app") (Some "notes")).
  - intros b [= <-]. vm_compute. reflexivity.
  - intros h [= <-] _. vm_compute. split; reflexivity.
  - vm_compute. reflexivity.
  - vm_compute. reflexivity.
  - vm_compute. reflexivity.
  - exists "#/invite/notes/co_zValue/inviteSecret_zSecret". vm_compute. reflexivity.
Defined.

(** Where C4 as stated fails: an empty hint is given but none comes
    back, and a hint with a space comes back percent-encoded. *)
Lemma invite_link_roundtrip_counterexample :
  let value := {| Invite.id := "co_zValue";
                  Invite.core := Invite.mkCore "co_zValue" Invite.group |} in
  let create := Invite.createInviteLink (λ _ _, "inviteSecret_zSecret") "" value
                  Invite.reader (Some "https://example.com/") in
  let parsed := λ hint, {| Invite.valueID := "co_zValue";
                           Invite.inviteSecret := "inviteSecret_zSecret";
                           Invite.valueHint := hint |} in
  (create (Some "") = JS.Ok "https://example.com/#/invite/co_zValue/inviteSecret_zSecret"
   ∧ Invite.parseInviteLink URL.parsesHttps
       "https://example.com/#/invite/co_zValue/inviteSecret_zSecret"
     = JS.Ok (Some (parsed None))
   ∧ Invite.parseInviteLink URL.parsesHttps
       "https://example.com/#/invite/co_zValue/inviteSecret_zSecret"
     ≠ JS.Ok (Some (parsed (Some ""))))
  ∧ (create (Some "my notes")
     = JS.Ok "https://example.com/#/invite/my notes/co_zValue/inviteSecret_zSecret"
     ∧ Invite.parseInviteLink URL.parsesHttps
         "https://example.com/#/invite/my notes/co_zValue/inviteSecret_zSecret"
       = JS.Ok (Some (parsed (Some "my%20notes")))
     ∧ Invite.parseInviteLink URL.parsesHttps
         "https://example.com/#/invite/my notes/co_zValue/inviteSecret_zSecret"
       ≠ JS.Ok (Some (parsed (Some "my notes")))).
Proof.
  split_and!; try (vm_compute; reflexivity); vm_compute; discriminate.
Qed.

(** ** Canonical encoding *)

Section CanonicalProps.
Import JSON Crypto.

(** Induction on JSON values that reaches into arrays and objects. *)
Lemma Json_nested_ind (Q : Json → Prop) :
  Q JNull → (∀ b, Q (JBool b)) → (∀ n, Q (JNum n)) → (∀ s, Q (JStr s)) →
  (∀ items, Forall Q items → Q (JArr items)) →
  (∀ props, Forall (λ p, Q p.2) props → Q (JObj props)) →
  ∀ x, Q x.
Proof.
  intros Hnull Hbool Hnum Hstr Harr Hobj. fix IH 1.
  intros [|b|n|s|items|props]; [done..| |].
  - apply Harr. revert items. fix IHitems 1.
    intros [|x items]; constructor; [apply IH|apply IHitems].
  - apply Hobj. revert props. fix IHprops 1.
    intros [|[k v] props]; constructor; [apply IH|apply IHprops].
Qed.

Lemma stableStringify_arr items :
  stableStringify (JArr items)
  = "[" +:+ String.concat "," (List.map stableStringify items) +:+ "]".
Proof. done. Qed.

Lemma stableStringify_obj props :
  stableStringify (JObj props)
  = "{" +:+ String.concat ","
              (List.map renderProp (merge_sort keyLe (List.map rendered props)))
    +:+ "}".
Proof. done. Qed.

#[local] Instance keyLe_trans : Transitive keyLe.
Proof. intros p q r. unfold keyLe. apply transitivity. Qed.

#[local] Instance keyLe_total : Total keyLe.
Proof. intros p q. unfold keyLe. apply total, _. Qed.

Lemma rendered_keys props : (List.map rendered props).*1 = props.*1.
Proof. induction props as [|[k v] props IH]; [done|]. cbn. by f_equal. Qed.

Lemma unique_keys {A} (l : list (string * A)) p q :
  NoDup l.*1 → p ∈ l → q ∈ l → p.1 = q.1 → p = q.
Proof.
  induction l as [|[k v] l IH]; intros Hnd Hp Hq Hkey; [by inv Hp|].
  simpl in Hnd. apply NoDup_cons in Hnd as [Hk Hnd].
  apply elem_of_cons in Hp as [->|Hp], Hq as [->|Hq]; [done| | |by apply IH].
  - destruct Hk. simpl in Hkey. rewrite Hkey. by apply list_elem_of_fmap_2.
  - destruct Hk. simpl in Hkey. rewrite <- Hkey. by apply list_elem_of_fmap_2.
Qed.

(** Sorting by key does not depend on the order the properties come
    in, as long as no key comes twice. *)
Lemma merge_sort_keys (l l' : list (string * string)) :
  NoDup l.*1 → l ≡ₚ l' → merge_sort keyLe l = merge_sort keyLe l'.
Proof.
  intros Hnd Hperm. apply (Sorted_unique_strong keyLe).
  - intros p q Hp Hq Hpq Hqp.
    rewrite merge_sort_Permutation in Hp. rewrite merge_sort_Permutation, <- Hperm in Hq.
    apply (unique_keys l); [done..|]. unfold keyLe in *. by apply (anti_symm String.le).
  - apply Sorted_merge_sort, _.
  - apply Sorted_merge_sort, _.
  - by rewrite !merge_sort_Permutation.
Qed.

(** The canonical text of a value does not depend on the insertion
    order of the properties of its objects. *)
Lemma stableStringify_reordered x :
  WellFormed x → ∀ y, Reordered x y → stableStringify x = stableStringify y.
Proof.
  induction x as [|b|n|s|items IH|props IH] using Json_nested_ind;
    intros Hwf y Hro; inv Hro; try done.
  - inv Hwf. rewrite !stableStringify_arr. do 3 f_equal.
    match goal with H : Forall2 Reordered _ _ |- _ => rename H into Hitems end.
    induction Hitems as [|x y' items items' Hxy Hitems IHf]; [done|].
    inv IH. match goal with H : Forall WellFormed (_ :: _) |- _ => inv H end.
    simpl. f_equal; auto.
  - inv Hwf. rewrite !stableStringify_obj. do 4 f_equal.
    match goal with
    | H : Forall2 _ props ?m, H' : ?m ≡ₚ _ |- _ => rename H into Hmid, H' into Hperm
    end.
    match goal with H : NoDup _ |- _ => rename H into Hnd end.
    match goal with H : Forall (λ p, WellFormed p.2) _ |- _ => rename H into Hvals end.
    assert (List.map rendered props = List.map rendered mid) as Heq.
    { clear Hnd Hperm. induction Hmid as [|[k v] [k' v'] props mid [Hk Hv] Hmid IHf]; [done|].
      inv IH. inv Hvals. simpl in *. subst k'. f_equal; [f_equal|]; auto. }
    apply merge_sort_keys; [by rewrite rendered_keys|].
    rewrite Heq. by apply Permutation_map.
Qed.

End CanonicalProps.

(** ** The crypto envelope *)

Section EnvelopeProps.
Import JSON Crypto.

Context {P : Primitives}.

(** C9. With ideal primitives: a signature over a payload verifies
    under the ID of the signer that made it, also when the payload is
    presented with the keys of its objects in another insertion order,
    and it does not verify under the ID of any other signer. *)
Theorem sign_verify (ideal : Ideal P) (k : SignerSecret) (x x' : Json) :
  WellFormed x → Reordered x x' →
  verify (sign k x) x (getSignerID k) = true
  ∧ verify (sign k x) x' (getSignerID k) = true
  ∧ (∀ k', k ≠ k' →
       verify (sign k x) x' (getSignerID k') = false
       ∧ verify (sign k' x) x' (getSignerID k) = false).
Proof.
  intros Hwf Hro. unfold verify, sign.
  rewrite <- (stableStringify_reordered x Hwf x' Hro). split_and!.
  - apply verify_own.
  - apply verify_own.
  - intros k' Hne. split; by apply verify_other.
Qed.

End EnvelopeProps.

(** The demonstration primitives are ideal. *)
Lemma demo_ideal : Crypto.Ideal Crypto.demo.
Proof.
  split; simpl.
  - intros sk m. by rewrite bool_decide_true.
  - intros sk sk' m Hne. rewrite bool_decide_false; [done|]. by intros [= ->].
  - intros k n m. by rewrite decide_True.
  - intros k k' n m Hne. rewrite decide_False; [done|]. by intros [= ->].
  - intros a b. lia.
  - intros a a' p Hne. lia.
Qed.

(** An instance of C9 on the demonstration primitives: the payload of
    the test suite, signed in one order and verified in the other. *)
Lemma sign_verify_witness :
  let data := JSON.JObj [("b", JSON.JStr "world"); ("a", JSON.JStr "hello")] in
  let data' := JSON.JObj [("a", JSON.JStr "hello"); ("b", JSON.JStr "world")] in
  Crypto.verify (P := Crypto.demo) (Crypto.sign (P := Crypto.demo) 11 data) data'
    (Crypto.getSignerID (Primitives := Crypto.demo) 11)
  = true
  ∧ Crypto.verify (P := Crypto.demo) (Crypto.sign (P := Crypto.demo) 12 data) data
      (Crypto.getSignerID (Primitives := Crypto.demo) 11)
    = false.
Proof.
  intros data data'.
  destruct (sign_verify (P := Crypto.demo) demo_ideal 11 data data')
    as (_ & Hown & Hother).
  - constructor; [|repeat constructor].
    apply (bool_decide_unpack _). by vm_compute.
  - apply (Crypto.ro_obj _ [("b", JSON.JStr "world"); ("a", JSON.JStr "hello")]).
    + repeat constructor.
    + apply Permutation_swap.
  - split; [exact Hown|].
    destruct (sign_verify (P := Crypto.demo) demo_ideal 11 data data) as (_ & _ & Hself).
    + constructor; [|repeat constructor].
      apply (bool_decide_unpack _). by vm_compute.
    + constructor.
    + apply (Hself 12). simpl. lia.
Defined.

(** ** More on the incoming WebSocket stream *)

Section WsStreamMore.
Import JSON WsStream WsStreamInv.

Variable JSON_parse : string → option Json.

Local Abbreviation onmessage := (onmessage JSON_parse).
Local Abbreviation run := (run JSON_parse).
Local Abbreviation step := (step JSON_parse).
Local Abbreviation isRecord := (isRecord JSON_parse).

Lemma onmessage_nextTimer now data msg s :
  JSON_parse data = Some msg →
  nextTimer (onmessage now data s).1 = S (nextTimer s).
Proof.
  intros Hparse. unfold WsStream.onmessage. rewrite Hparse.
  set (s1 := match pingTimeout s with Some (S _) => clearPingTimeout s | _ => s end).
  assert (nextTimer s1 = nextTimer s) as Hn.
  { unfold s1. by destruct (pingTimeout s) as [[|h]|]. }
  destruct (getType msg) as [ty|e]; simpl; [|by rewrite Hn].
  destruct (strictEqStr ty "ping"); simpl; [by rewrite Hn|].
  unfold controllerEnqueue. simpl. destruct (controller s1); simpl; by rewrite Hn.
Qed.

Lemma step_singleTimer s e : singleTimer s → singleTimer (step s e).
Proof.
  intros [Hn Hone]. destruct e as [now data|now h| | |]; simpl.
  - destruct (JSON_parse data) as [msg|] eqn:Hparse.
    + destruct (onmessage_rearms JSON_parse now data msg s Hparse) as [Hp Ht].
      split; [rewrite (onmessage_nextTimer now data msg s Hparse); lia|].
      intros h d. rewrite Ht, Hp. intros Hh.
      apply lookup_insert_Some in Hh as [[<- _]|[Hne Hh]]; [done|]. exfalso.
      destruct (pingTimeout s) as [[|h']|] eqn:Hping.
      * destruct (Hone h d Hh) as [[= <-] ?]. lia.
      * apply lookup_delete_Some in Hh as [Hne' Hh].
        destruct (Hone h d Hh) as [[= <-] ?]. done.
      * by destruct (Hone h d Hh).
    + unfold WsStream.onmessage. rewrite Hparse. done.
  - unfold fire. destruct (timers s !! h) as [deadline|] eqn:Hh; [|done].
    destruct (decide (deadline ≤ now)); [|done].
    unfold onPingTimeout, controllerClose, wsClose. simpl.
    destruct (controller s); simpl; (split; [done|]); intros h' d Hh';
      cbn in Hh'; apply lookup_delete_Some in Hh' as [_ Hh']; by apply (Hone h' d).
  - destruct (closeListening s); simpl; [|done].
    unfold closeListener, controllerClose. simpl.
    destruct (controller s); simpl; try done. split; [done|].
    intros h d. destruct (pingTimeout s) as [h'|] eqn:Hping; simpl.
    + intros [_ Hh]%lookup_delete_Some. by apply (Hone h d).
    + apply Hone.
  - unfold errorListener, controllerError. simpl. by destruct (controller s).
  - by destruct (controller s).
Qed.

Lemma run_singleTimer es s : singleTimer s → singleTimer (run s es).
Proof.
  unfold WsStream.run. revert s. induction es as [|e es IH]; intros s Hs; [done|].
  simpl. by apply IH, step_singleTimer.
Qed.

(** X1. Whatever happens to the incoming stream (messages that parse
    or not, timers firing, the socket closing or failing, the consumer
    cancelling), at most one idle timer is pending, and it is the one
    the variable [pingTimeout] holds. *)
Theorem single_pending_timer (es : list event) :
  let s := run start es in
  ∀ h1 h2 d1 d2,
    timers s !! h1 = Some d1 → timers s !! h2 = Some d2 →
    h1 = h2 ∧ d1 = d2 ∧ pingTimeout s = Some h1.
Proof.
  intros s h1 h2 d1 d2 H1 H2.
  assert (singleTimer s) as [_ Hone].
  { apply run_singleTimer. split; [simpl; lia|]. intros h d. by simpl. }
  destruct (Hone h1 d1 H1) as [Hp1 _], (Hone h2 d2 H2) as [Hp2 _].
  assert (h1 = h2) as <- by congruence. split_and!; [done|congruence|done].
Qed.

Lemma step_not_readable s e :
  controller s ≠ Readable →
  controller (step s e) ≠ Readable ∧ enqueued (step s e) = enqueued s.
Proof.
  intros Hc. destruct e as [now data|now h| | |]; simpl.
  - unfold WsStream.onmessage. destruct (JSON_parse data) as [msg|]; [|done].
    set (s1 := match pingTimeout s with Some (S _) => clearPingTimeout s | _ => s end).
    assert (controller s1 = controller s ∧ enqueued s1 = enqueued s) as [Hc1 He1].
    { unfold s1. by destruct (pingTimeout s) as [[|h]|]. }
    destruct (getType msg) as [ty|e]; simpl; [|by rewrite Hc1, He1].
    destruct (strictEqStr ty "ping"); simpl; [by rewrite Hc1, He1|].
    unfold controllerEnqueue. simpl. rewrite Hc1.
    destruct (controller s); simpl; by rewrite ?Hc1, ?He1.
  - unfold fire. destruct (timers s !! h) as [deadline|]; [|done].
    destruct (decide (deadline ≤ now)); [|done].
    unfold onPingTimeout, controllerClose. simpl. by destruct (controller s).
  - unfold socketDown. destruct (closeListening s); simpl; [|done].
    unfold closeListener, controllerClose. simpl. by destruct (controller s).
  - unfold errorListener, controllerError, socketDown. simpl.
    by destruct (controller s).
  - unfold wsClose. destruct (controller s) eqn:Hcs; simpl; [done|by rewrite Hcs..].
Qed.

(** X2. Once the stream has been closed or has errored, it never
    becomes readable again and nothing more reaches the consumer,
    whatever arrives on the socket afterwards. *)
Theorem closed_stream_stays_closed (s : state) (es : list event) :
  controller s ≠ Readable →
  controller (run s es) ≠ Readable ∧ enqueued (run s es) = enqueued s.
Proof.
  unfold WsStream.run. revert s. induction es as [|e es IH]; intros s Hc; [done|].
  simpl. destruct (step_not_readable s e Hc) as [Hc' He'].
  destruct (IH _ Hc') as [Hc'' He'']. split; [done|congruence].
Qed.

(** X3. When the socket closes under an open stream, the close
    listener closes the controller and clears the idle timer: no timer
    is left pending, and none can fire later. *)
Theorem socket_close_clears_timer (msgs : list (Z * string)) :
  Forall (λ m, isRecord m.2) msgs →
  let s := step (run start (messages msgs)) SocketClosed in
  controller s = Closed ∧ timers s = ∅
  ∧ enqueued s = enqueued (run start (messages msgs))
  ∧ ∀ now h, step s (TimerFires now h) = s.
Proof.
  intros Hrec. destruct (run_messages JSON_parse msgs Hrec) as [(Hc & Hw & Hn & Hlast) _].
  set (s0 := run start (messages msgs)) in *. cbv zeta.
  assert (closeListening s0 = true) as Hl.
  { unfold s0. clear. induction msgs as [|[now data] msgs IH] using rev_ind; [done|].
    rewrite messages_snoc, run_snoc. simpl. revert IH.
    generalize (run start (messages msgs)). intros s IH.
    unfold WsStream.onmessage. destruct (JSON_parse data) as [msg|]; [|done].
    set (s1 := match pingTimeout s with Some (S _) => clearPingTimeout s | _ => s end).
    assert (closeListening s1 = true) as Hl1.
    { unfold s1. by destruct (pingTimeout s) as [[|h]|]. }
    destruct (getType msg) as [ty|e]; simpl; [|done].
    destruct (strictEqStr ty "ping"); simpl; [done|].
    unfold controllerEnqueue. simpl. by destruct (controller s1). }
  simpl. rewrite Hl. unfold closeListener, controllerClose, clearPingTimeout. simpl.
  rewrite Hc. simpl.
  assert ((match pingTimeout s0 with
           | Some h => delete h (timers s0)
           | None => timers s0
           end) = ∅) as Hempty.
  { destruct (last msgs) as [[t data]|]; simpl in Hlast.
    - destruct Hlast as (h & _ & -> & ->). apply delete_singleton_eq.
    - by destruct Hlast as [-> ->]. }
  rewrite Hempty. split_and!; done.
Qed.


End WsStreamMore.

(** Instances of X2, X3 and X4, with a parser that reads its input as
    the type of a record. *)
Lemma closed_stream_stays_closed_witness :
  let parse := λ data, Some (JSON.JObj [("type", JSON.JStr data)]) in
  let s := WsStream.step parse WsStream.start WsStream.Cancel in
  WsStream.enqueued
    (WsStream.run parse s [WsStream.Message 0 "content"; WsStream.SocketClosed])
  = [].
Proof.
  intros parse s.
  apply (closed_stream_stays_closed parse s
           [WsStream.Message 0 "content"; WsStream.SocketClosed]).
  vm_compute. discriminate.
Defined.

Lemma socket_close_clears_timer_witness :
  let parse := λ data, Some (JSON.JObj [("type", JSON.JStr data)]) in
  WsStream.timers
    (WsStream.step parse
       (WsStream.run parse WsStream.start (WsStream.messages [(0, "known")]))
       WsStream.SocketClosed)
  = ∅.
Proof.
  intros parse.
  destruct (socket_close_clears_timer parse [(0, "known")]) as (_ & Htimers & _).
  - repeat constructor. eexists. reflexivity.
  - exact Htimers.
Defined.


(** ** The outgoing WebSocket stream *)

Section WsWritableProps.
Import WsWritable.

Variable T : Type.
Variable JSON_stringify : T → string.

Local Abbreviation state := (state T).
Local Abbreviation run := (run T JSON_stringify).
Local Abbreviation step := (step T JSON_stringify).
Local Abbreviation flush := (flush T JSON_stringify).
Local Abbreviation start := (start T).
Local Abbreviation writes := (writes T).

Lemma wrun_app (s : state) es1 es2 : run s (es1 ++ es2) = run (run s es1) es2.
Proof. unfold WsWritable.run. apply fold_left_app. Qed.

(** Chunks written before the socket opens are queued, in order. *)
Lemma writes_queued chunks (s : state) :
  stream s = Writable → isOpen s = false →
  run s (writes chunks)
  = {| stream := Writable; isOpen := false;
       initialQueue := initialQueue s ++ chunks; ws := ws s;
       transmitted := transmitted s; closeCalls := closeCalls s |}.
Proof.
  unfold WsWritable.run, WsWritable.writes.
  revert s. induction chunks as [|c chunks IH]; intros s Hs Ho.
  { simpl. rewrite app_nil_r. destruct s. simpl in *. by subst. }
  simpl. rewrite Hs. unfold write. rewrite Ho. simpl.
  rewrite IH by done. simpl. by rewrite <- app_assoc.
Qed.

(** Chunks written to the open socket go out at once, in order. *)
Lemma writes_sent chunks (s : state) :
  stream s = Writable → isOpen s = true → ws s = Open →
  run s (writes chunks)
  = {| stream := Writable; isOpen := true; initialQueue := initialQueue s;
       ws := Open; transmitted := transmitted s ++ (JSON_stringify <$> chunks);
       closeCalls := closeCalls s |}.
Proof.
  unfold WsWritable.run, WsWritable.writes.
  revert s. induction chunks as [|c chunks IH]; intros s Hs Ho Hw.
  { simpl. rewrite app_nil_r. destruct s. simpl in *. by subst. }
  simpl. rewrite Hs. unfold write, wsSend. rewrite Ho, Hw. simpl.
  rewrite IH by done. simpl. by rewrite <- app_assoc.
Qed.

(** Flushing the queue on an open socket sends every item, in order. *)
Lemma flush_open items (s : state) :
  ws s = Open →
  flush items s
  = JS.Ok {| stream := stream s; isOpen := isOpen s; initialQueue := initialQueue s;
             ws := Open; transmitted := transmitted s ++ (JSON_stringify <$> items);
             closeCalls := closeCalls s |}.
Proof.
  revert s. induction items as [|c items IH]; intros s Hw.
  { simpl. rewrite app_nil_r. destruct s. simpl in *. by subst. }
  simpl. unfold wsSend. rewrite Hw. rewrite IH by done. simpl.
  by rewrite <- app_assoc.
Qed.

(** X5. Chunks written to the outgoing stream before the socket has
    opened are held back and nothing is sent; when the socket opens
    they go out in the order they were written, followed, in order, by
    the chunks written afterwards: every chunk is sent once, none is
    dropped or overtaken. *)
Theorem writes_transmitted_in_order (before after : list T) :
  transmitted (run start (writes before)) = []
  ∧ initialQueue (run start (writes before)) = before
  ∧ transmitted (run start (writes before ++ [SocketOpens] ++ writes after))
    = JSON_stringify <$> (before ++ after).
Proof.
  rewrite !wrun_app, (writes_queued before (WsWritable.start T)) by done.
  split_and!; [done..|].
  simpl. unfold onOpen. rewrite flush_open by done. simpl.
  rewrite writes_sent by done. simpl. by rewrite fmap_app.
Qed.

Lemma step_socket_closed (s : state) e :
  ws s = Closed → ws (step s e) = Closed ∧ transmitted (step s e) = transmitted s.
Proof.
  intros Hw. destruct e as [chunk| |reason| | |event]; simpl.
  - destruct (stream s); [|done..]. unfold write, wsSend. rewrite Hw.
    by destruct (isOpen s).
  - destruct (stream s); [|done..]. simpl. by rewrite Hw.
  - destruct (stream s); [|done..]. simpl. by rewrite Hw.
  - by rewrite Hw.
  - done.
  - done.
Qed.

(** X6. Once the socket has closed or failed, the outgoing stream puts
    nothing more on the wire, whatever is written to it afterwards; in
    particular, chunks still queued when a socket fails before it
    opened are never sent. *)
Theorem nothing_sent_after_close (s : state) (es : list (event T)) :
  ws s = Closed → transmitted (run s es) = transmitted s.
Proof.
  unfold WsWritable.run. revert s. induction es as [|e es IH]; intros s Hw; [done|].
  simpl. destruct (step_socket_closed s e Hw) as [Hw' Ht]. by rewrite IH.
Qed.

End WsWritableProps.

(** An instance of X6: two chunks are written, the socket fails before
    it opened, more is written. *)
Lemma nothing_sent_after_close_witness :
  WsWritable.transmitted
    (WsWritable.run string id
       (WsWritable.run string id (WsWritable.start string)
          [WsWritable.Write "a"; WsWritable.Write "b"; WsWritable.SocketErrors "{}"])
       [WsWritable.Write "c"; WsWritable.SocketOpens])
  = [].
Proof.
  apply (nothing_sent_after_close string id
           (WsWritable.run string id (WsWritable.start string)
              [WsWritable.Write "a"; WsWritable.Write "b"; WsWritable.SocketErrors "{}"])).
  reflexivity.
Defined.

(** ** More on session slots *)

Section SessionMore.
Import Session.

Variable available : nat → nat → bool.
Variables accountID nonce : string.
Variable ls : gmap string string.

Lemma slotKey_inj i j : slotKey accountID i = slotKey accountID j → i = j.
Proof.
  unfold slotKey. intros H.
  apply (inj (String.app accountID)), (inj (String.app "_")) in H.
  by apply (inj pretty) in H.
Qed.

(** X7. A run of [getSessionHandleFor] that is granted slot [i] writes
    to the storage entry of that slot and to no other: the session IDs
    kept for the other slots of the account, and everything else in the
    storage, stay as they were. *)
Theorem other_slots_untouched (i : nat) :
  let r := getSessionHandleFor available accountID nonce ls in
  heldSlot r = Some i →
  (∀ k, k ≠ slotKey accountID i → storage r !! k = ls !! k)
  ∧ (∀ j, j ≠ i → storage r !! slotKey accountID j = ls !! slotKey accountID j).
Proof.
  cbv zeta. unfold getSessionHandleFor. intros Hheld.
  apply slotLoop_held in Hheld as (reqs & ->). cbn [granted storage].
  assert (∀ k, k ≠ slotKey accountID i →
            <[slotKey accountID i :=
                match ls !! slotKey accountID i with
                | Some (String c s) => String c s
                | _ => newRandomSessionID accountID nonce
                end]> ls !! k = ls !! k) as Hother.
  { intros k Hk. by rewrite lookup_insert_ne. }
  split; [done|]. intros j Hj. apply Hother. intros Heq. by apply slotKey_inj in Heq.
Qed.

End SessionMore.

(** An instance of X7: slot 0 holds a session of an earlier run and is
    taken; the run is granted slot 1 and leaves slot 0 alone. *)
Lemma other_slots_untouched_witness :
  Session.storage
    (Session.getSessionHandleFor (λ i _, bool_decide (i = 1%nat)) "co_zAlice" "zFresh"
       {["co_zAlice_0" := "co_zAlice_session_zOld"]})
  !! "co_zAlice_0"
  = Some "co_zAlice_session_zOld".
Proof.
  destruct (other_slots_untouched (λ i _, bool_decide (i = 1%nat)) "co_zAlice" "zFresh"
              {["co_zAlice_0" := "co_zAlice_session_zOld"]} 1%nat) as [_ Hslots].
  - reflexivity.
  - apply (Hslots 0%nat). lia.
Defined.

(** ** The reconnection loop between its awaits *)

Section ReconnectLoopProps.
Import ReconnectLoop.

Lemma prefix_app (a b : string) : String.prefix a (a +:+ b) = true.
Proof.
  induction a as [|c a IH]; [by destruct b|].
  change (String c a +:+ b) with (String c (a +:+ b)). simpl.
  by destruct (ascii_dec c c).
Qed.

Lemma includes_prefix (needle haystack : string) :
  String.prefix needle haystack = true → includes needle haystack = true.
Proof. intros H. destruct haystack; cbn [includes]; by rewrite H. Qed.

Lemma includes_app (a b : string) : includes a (a +:+ b) = true.
Proof. apply includes_prefix, prefix_app. Qed.

Lemma existsb_app_true {A} (f : A → bool) l x :
  f x = true → existsb f (l ++ [x]) = true.
Proof. intros Hx. rewrite existsb_app. simpl. rewrite Hx. by destruct (existsb f l). Qed.

Lemma loopHead_stopped s :
  shouldTryToReconnect s = false →
  loopHead s
  = {| syncAddress := syncAddress s;
       initialReconnectionTimeout := initialReconnectionTimeout s;
       currentReconnectionTimeout := currentReconnectionTimeout s;
       shouldTryToReconnect := false;
       loopAt := Exited; peers := peers s; waits := waits s; added := added s |}.
Proof. intros Hs. unfold loopHead. by rewrite Hs. Qed.

Lemma step_stopped s e :
  shouldTryToReconnect s = false →
  shouldTryToReconnect (step s e) = false
  ∧ waits (step s e) = waits s
  ∧ (length (added (step s e)) + inFlight (step s e)
     ≤ length (added s) + inFlight s)%nat.
Proof.
  intros Hs. destruct e as [date| | |id|id]; unfold inFlight; simpl;
    try (split_and!; [done|done|lia]).
  unfold resume. destruct (loopAt s) eqn:Hat.
  - rewrite loopHead_stopped by done. simpl. split_and!; [done|done|lia].
  - rewrite loopHead_stopped by done. simpl. rewrite length_app. simpl.
    split_and!; [done|done|lia].
  - rewrite ?Hat. split_and!; [done|done|lia].
Qed.

(** X8. After [done] was called on the handle, the loop starts no
    further wait, and it adds at most one more peer: the one of a
    reconnection attempt that was waiting when [done] came, which is
    still carried out when the wait ends. *)
Theorem loop_after_done (s : state) (es : list event) (date : string) :
  shouldTryToReconnect s = false →
  waits (run s es) = waits s
  ∧ (length (added (run s es)) ≤ length (added s) + inFlight s)%nat
  ∧ (loopAt s = Waiting →
       added (step s (Resumes date))
       = added s ++ [createWebSocketPeerId (syncAddress s) date]
       ∧ loopAt (step s (Resumes date)) = Exited).
Proof.
  intros Hs. split_and!.
  - unfold run. revert s Hs. induction es as [|e es IH]; intros s Hs; [done|].
    simpl. destruct (step_stopped s e Hs) as (Hs' & Hw & _). by rewrite IH.
  - assert (length (added (run s es)) + inFlight (run s es)
            ≤ length (added s) + inFlight s)%nat; [|lia].
    unfold run. revert s Hs. induction es as [|e es IH]; intros s Hs; [done|].
    simpl. destruct (step_stopped s e Hs) as (Hs' & _ & Hle).
    specialize (IH _ Hs'). lia.
  - intros Hat. simpl. unfold resume. rewrite Hat.
    by rewrite loopHead_stopped.
Qed.

(** The loop is not in the middle of an attempt and a peer for the sync
    address is in the table. *)
Lemma step_idle s e :
  isRemoval e = false → connected s = true → loopAt s ≠ Waiting →
  connected (step s e) = true ∧ loopAt (step s e) ≠ Waiting
  ∧ waits (step s e) = waits s ∧ added (step s e) = added s.
Proof.
  intros He Hc Hat. destruct e as [date| | |id|id]; simpl; try done.
  - unfold resume. destruct (loopAt s) eqn:Hl; [|done|by rewrite Hl].
    unfold loopHead. destruct (shouldTryToReconnect s); simpl; [|done].
    rewrite Hc. done.
  - split_and!; try done. unfold connected in *. simpl.
    destruct (bool_decide (id ∈ peers s)); [done|].
    rewrite existsb_app, Hc. done.
Qed.

(** X9. A reconnection attempt is never followed directly by another
    one: the peer the loop adds carries the sync address in its ID, so
    the loop finds the node connected, and for as long as the sync
    manager drops no peer it neither waits again nor adds a peer. *)
Theorem one_attempt_per_disconnect (s : state) (date : string) (es : list event) :
  loopAt s = Waiting → forallb (λ e, negb (isRemoval e)) es = true →
  let s' := run (step s (Resumes date)) es in
  added s' = added s ++ [createWebSocketPeerId (syncAddress s) date]
  ∧ waits s' = waits s
  ∧ loopAt s' ≠ Waiting.
Proof.
  intros Hat Hes. cbv zeta.
  set (id := createWebSocketPeerId (syncAddress s) date).
  assert (connected (step s (Resumes date)) = true
          ∧ loopAt (step s (Resumes date)) ≠ Waiting
          ∧ waits (step s (Resumes date)) = waits s
          ∧ added (step s (Resumes date)) = added s ++ [id]) as (Hc & Hl & Hw & Ha).
  { cbn [step]. unfold resume. rewrite Hat. fold id.
    assert (connected (addPeer id s) = true) as Hc.
    { unfold connected, addPeer. simpl. destruct (bool_decide_reflect (id ∈ peers s)).
      - apply existsb_exists. exists id. split; [by apply list_elem_of_In|].
        apply includes_app.
      - apply existsb_app_true, includes_app. }
    unfold loopHead. rewrite Hc.
    destruct (shouldTryToReconnect (addPeer id s)); simpl; done. }
  rewrite <- Ha, <- Hw. clear Hat Ha Hw. revert Hc Hl.
  generalize (step s (Resumes date)). intros s1 Hc Hl.
  unfold run. revert s1 Hc Hl. induction es as [|e es IH]; intros s1 Hc Hl; [done|].
  simpl in Hes. apply andb_prop in Hes as [He Hes]. apply negb_true_iff in He.
  destruct (step_idle s1 e He Hc Hl) as (Hc' & Hl' & Hw' & Ha').
  simpl. destruct (IH Hes _ Hc' Hl') as (-> & -> & ?). done.
Qed.

End ReconnectLoopProps.

(** An instance of X8: [done] comes while the loop waits to reconnect;
    the attempt is still made, and nothing after it. *)
Lemma loop_after_done_witness :
  let s := ReconnectLoop.step
             (ReconnectLoop.websocketReconnectLoop "wss://sync.jazz.tools" 500 [])
             ReconnectLoop.Done in
  ReconnectLoop.added
    (ReconnectLoop.run s [ReconnectLoop.Resumes "2023-10-01T00:00:01.000Z";
                          ReconnectLoop.Resumes "2023-10-01T00:00:02.000Z"])
  = ["wss://sync.jazz.tools@2023-10-01T00:00:01.000Z"]
  ∧ ReconnectLoop.waits s = [1000].
Proof.
  intros s.
  destruct (loop_after_done s [ReconnectLoop.Resumes "2023-10-01T00:00:01.000Z";
                               ReconnectLoop.Resumes "2023-10-01T00:00:02.000Z"]
              "2023-10-01T00:00:01.000Z") as (Hwaits & _ & _).
  - reflexivity.
  - split; vm_compute; reflexivity.
Defined.

(** An instance of X9: after the attempt the loop only sleeps. *)
Lemma one_attempt_per_disconnect_witness :
  let s := ReconnectLoop.websocketReconnectLoop "wss://sync.jazz.tools" 500 [] in
  ReconnectLoop.added
    (ReconnectLoop.run (ReconnectLoop.step s (ReconnectLoop.Resumes "T1"))
       [ReconnectLoop.Resumes "T2"; ReconnectLoop.Online; ReconnectLoop.Resumes "T3"])
  = ["wss://sync.jazz.tools@T1"].
Proof.
  intros s.
  destruct (one_attempt_per_disconnect s "T1"
              [ReconnectLoop.Resumes "T2"; ReconnectLoop.Online;
               ReconnectLoop.Resumes "T3"]) as (Hadded & _).
  - reflexivity.
  - reflexivity.
  - rewrite Hadded. vm_compute. reflexivity.
Defined.

(** ** The demo auth provider *)

Section DemoAuthProps.
Import DemoAuth.

Variable JSON_stringify : StorageData → string.
Variable JSON_parse : string → option StorageData.

Local Abbreviation signUp := (signUp JSON_stringify).
Local Abbreviation logInAs := (logInAs JSON_stringify JSON_parse).
Local Abbreviation createNode := (createNode JSON_parse).
Local Abbreviation apply := (apply JSON_stringify JSON_parse).
Local Abbreviation run := (run JSON_stringify JSON_parse).

Lemma userKey_inj u v : userKey u = userKey v → u = v.
Proof. unfold userKey. apply (inj (String.app _)). Qed.

Lemma userKey_not_secret u : userKey u ≠ localStorageKey.
Proof. unfold userKey, localStorageKey. intros H. by vm_compute in H. Qed.

Lemma userKey_not_list u : userKey u ≠ existingUsersKey.
Proof. unfold userKey, existingUsersKey. intros H. by vm_compute in H. Qed.

Lemma apply_userKey ls o u :
  apply ls o !! userKey u
  = match o with
    | SignUp v data => if decide (v = u) then Some (JSON_stringify data)
                       else ls !! userKey u
    | _ => ls !! userKey u
    end.
Proof.
  destruct o as [v data|v|]; simpl.
  - unfold DemoAuth.signUp.
    rewrite lookup_insert_ne by (symmetry; apply userKey_not_list).
    destruct (decide (v = u)) as [->|Hne].
    + by rewrite lookup_insert_eq.
    + rewrite lookup_insert_ne by (intros H; by apply userKey_inj in H).
      rewrite lookup_insert_ne by (symmetry; apply userKey_not_secret). done.
  - unfold DemoAuth.logInAs. destruct (ls !! userKey v) as [stored|]; [|done].
    destruct (JSON_parse stored); [|done].
    rewrite lookup_insert_ne by (symmetry; apply userKey_not_secret). done.
  - unfold logOut. rewrite lookup_delete_ne by (symmetry; apply userKey_not_secret).
    done.
Qed.

Lemma run_userKey ops ls u :
  run ls ops !! userKey u
  = match lastSignUp u ops with
    | Some data => Some (JSON_stringify data)
    | None => ls !! userKey u
    end.
Proof.
  unfold DemoAuth.run. revert ls. induction ops as [|o ops IH]; intros ls; [done|].
  simpl. rewrite IH. destruct (lastSignUp u ops); [done|].
  rewrite apply_userKey. destruct o as [v data|v|]; try done.
  by destruct (decide (v = u)).
Qed.

(** X10. Whatever sign-ups, log-ins and log-outs happened on the
    device, logging in as an existing user loads the account with the
    credentials of the last sign-up under that name, and makes them the
    logged-in ones; a second sign-up under a name thus replaces the
    credentials of the first. *)
Theorem demo_login_uses_last_signup (ls : gmap string string) (ops : list op)
    (username : string) (data : StorageData) :
  lastSignUp username ops = Some data →
  JSON_parse (JSON_stringify data) = Some data →
  logInAs username (run ls ops)
  = JS.Ok (data, <[localStorageKey := JSON_stringify data]> (run ls ops)).
Proof.
  intros Hlast Hparse. unfold DemoAuth.logInAs.
  by rewrite run_userKey, Hlast, Hparse.
Qed.

Lemma concat_snoc sep (names : list string) u :
  names ≠ [] →
  String.concat sep (names ++ [u]) = String.concat sep names +:+ sep +:+ u.
Proof.
  induction names as [|x [|y names] IH]; intros Hne; [done|done|].
  specialize (IH ltac:(done)).
  change (String.concat sep ((x :: y :: names) ++ [u]))
    with (x +:+ sep +:+ String.concat sep ((y :: names) ++ [u])).
  change (String.concat sep (x :: y :: names))
    with (x +:+ sep +:+ String.concat sep (y :: names)).
  by rewrite IH, !append_assoc.
Qed.

Lemma concat_nonempty sep (names : list string) :
  names ≠ [] → Forall (λ n, n ≠ "") names → String.concat sep names ≠ "".
Proof.
  intros Hne Hall. destruct names as [|x names]; [done|].
  apply Forall_cons in Hall as [Hx _]. destruct x as [|c x]; [done|].
  by destruct names.
Qed.

Lemma split_concat (sep : ascii) (names : list string) :
  names ≠ [] → Forall (λ n, URL.occurs sep n = false) names →
  Invite.split sep (String.concat (String sep "") names) = names.
Proof.
  induction names as [|x [|y names] IH]; intros Hne Hall; [done| |].
  - apply Forall_cons in Hall as [Hx _]. by apply split_no_sep.
  - apply Forall_cons in Hall as [Hx Hall]. specialize (IH ltac:(done) Hall).
    change (String.concat (String sep "") (x :: y :: names))
      with (x +:+ String sep (String.concat (String sep "") (y :: names))).
    by rewrite split_app, IH.
Qed.

Lemma apply_list ls o :
  apply ls o !! existingUsersKey
  = match o with
    | SignUp v _ =>
        Some match ls !! existingUsersKey with
             | Some (String c users) => String c users +:+ "," +:+ v
             | _ => v
             end
    | _ => ls !! existingUsersKey
    end.
Proof.
  destruct o as [v data|v|]; simpl.
  - unfold DemoAuth.signUp. rewrite lookup_insert_eq.
    rewrite lookup_insert_ne by apply userKey_not_list.
    by rewrite lookup_insert_ne.
  - unfold DemoAuth.logInAs. destruct (ls !! userKey v) as [stored|]; [|done].
    destruct (JSON_parse stored); [|done]. by rewrite lookup_insert_ne.
  - unfold logOut. by rewrite lookup_delete_ne.
Qed.

Lemma signedUp_snoc ops o :
  signedUp (ops ++ [o])
  = signedUp ops ++ match o with SignUp u _ => [u] | _ => [] end.
Proof. unfold signedUp. rewrite omap_app. by destruct o. Qed.

Lemma run_list ops ls :
  ls !! existingUsersKey = None → Forall listable (signedUp ops) →
  run ls ops !! existingUsersKey
  = match signedUp ops with
    | [] => None
    | names => Some (String.concat "," names)
    end.
Proof.
  intros Hfresh. induction ops as [|o ops IH] using rev_ind; intros Hall; [done|].
  rewrite signedUp_snoc in Hall |- *. apply Forall_app in Hall as [Hall Ho].
  unfold DemoAuth.run in *. rewrite fold_left_app. simpl.
  rewrite apply_list, (IH Hall). destruct o as [u data|u|]; try by rewrite app_nil_r.
  destruct (signedUp ops) as [|n names] eqn:Hnames; [done|].
  assert (String.concat "," (n :: names) ≠ "") as Hne.
  { apply concat_nonempty; [done|]. eapply Forall_impl; [exact Hall|]. by intros ? []. }
  transitivity (Some (String.concat "," ((n :: names) ++ [u]))); [|done].
  rewrite concat_snoc by done.
  by destruct (String.concat "," (n :: names)).
Qed.

(** X11. On a device that has seen no demo account yet, the list of
    existing users handed to the driver is the list of the names signed
    up, in the order of the sign-ups (a name signed up twice is listed
    twice), provided no name is empty or contains a comma; log-ins and
    log-outs do not change it. *)
Theorem demo_existing_users (ls : gmap string string) (ops : list op) :
  ls !! existingUsersKey = None → Forall listable (signedUp ops) →
  existingUsers (run ls ops) = signedUp ops.
Proof.
  intros Hfresh Hall. unfold existingUsers. rewrite run_list by done.
  destruct (signedUp ops) as [|n names] eqn:Hnames; [done|].
  apply (split_concat ","); [done|]. eapply Forall_impl; [exact Hall|]. by intros ? [].
Qed.

(** X12. After a sign-up, or a log-in as an existing user, the next
    [createNode] on the device (a reload of the page) loads the account
    with the same credentials without asking the driver. After a
    log-out it asks the driver again, with the list of existing users
    unchanged, and the credentials kept for every user are still
    there. *)
Theorem demo_restart_and_logout (ls : gmap string string)
    (username : string) (data : StorageData) :
  JSON_parse (JSON_stringify data) = Some data → JSON_stringify data ≠ "" →
  createNode (signUp username data ls) = JS.Ok (Loads data)
  ∧ (∀ ls', logInAs username ls = JS.Ok (data, ls') → createNode ls' = JS.Ok (Loads data))
  ∧ createNode (logOut (signUp username data ls))
    = JS.Ok (Ready (existingUsers (signUp username data ls)))
  ∧ logInAs username (logOut (signUp username data ls))
    = JS.Ok (data, <[localStorageKey := JSON_stringify data]>
                     (logOut (signUp username data ls))).
Proof.
  intros Hparse Hne.
  assert (∀ m : gmap string string,
            DemoAuth.createNode JSON_parse (<[localStorageKey := JSON_stringify data]> m)
            = JS.Ok (Loads data)) as Hload.
  { intros m. unfold DemoAuth.createNode. rewrite lookup_insert_eq. simpl.
    rewrite Hparse. by destruct (JSON_stringify data). }
  split_and!.
  - unfold DemoAuth.createNode, DemoAuth.signUp.
    rewrite lookup_insert_ne by done.
    rewrite lookup_insert_ne by (apply userKey_not_secret).
    rewrite lookup_insert_eq. simpl. rewrite Hparse. by destruct (JSON_stringify data).
  - intros ls'. unfold DemoAuth.logInAs.
    destruct (ls !! userKey username) as [stored|]; [|done].
    destruct (JSON_parse stored) as [d|]; [|done]. intros [= -> <-]. apply Hload.
  - unfold DemoAuth.createNode, logOut. rewrite lookup_delete_eq. simpl.
    unfold existingUsers. by rewrite lookup_delete_ne.
  - unfold DemoAuth.logInAs, logOut.
    rewrite lookup_delete_ne by (symmetry; apply userKey_not_secret).
    unfold DemoAuth.signUp at 1.
    rewrite lookup_insert_ne by (symmetry; apply userKey_not_list).
    by rewrite lookup_insert_eq, Hparse.
Qed.

End DemoAuthProps.

(** Instances of X10, X11 and X12, with credentials written as
    [<accountID>/<accountSecret>]. *)
Lemma demo_login_uses_last_signup_witness :
  let stringify := λ d, DemoAuth.accountID d +:+ "/" +:+ DemoAuth.accountSecret d in
  let parse := λ s, match Invite.split "/" s with
                    | [a; b] => Some (DemoAuth.mkStorageData a b)
                    | _ => None
                    end in
  let first := DemoAuth.mkStorageData "co_zFirst" "secret1" in
  let second := DemoAuth.mkStorageData "co_zSecond" "secret2" in
  let ls := DemoAuth.run stringify parse ∅
              [DemoAuth.SignUp "ann" first; DemoAuth.LogOut;
               DemoAuth.SignUp "ann" second; DemoAuth.LogOut] in
  DemoAuth.logInAs stringify parse "ann" ls
  = JS.Ok (second, <[DemoAuth.localStorageKey := "co_zSecond/secret2"]> ls).
Proof.
  intros stringify parse first second ls.
  apply (demo_login_uses_last_signup stringify parse ∅
           [DemoAuth.SignUp "ann" first; DemoAuth.LogOut;
            DemoAuth.SignUp "ann" second; DemoAuth.LogOut] "ann" second).
  - vm_compute. reflexivity.
  - vm_compute. reflexivity.
Defined.

Lemma demo_existing_users_witness :
  let stringify := λ d, DemoAuth.accountID d +:+ "/" +:+ DemoAuth.accountSecret d in
  let parse := λ s, match Invite.split "/" s with
                    | [a; b] => Some (DemoAuth.mkStorageData a b)
                    | _ => None
                    end in
  DemoAuth.existingUsers
    (DemoAuth.run stringify parse ∅
       [DemoAuth.SignUp "ann" (DemoAuth.mkStorageData "co_zFirst" "secret1");
        DemoAuth.LogOut;
        DemoAuth.SignUp "bob" (DemoAuth.mkStorageData "co_zSecond" "secret2")])
  = ["ann"; "bob"].
Proof.
  intros stringify parse.
  apply (demo_existing_users stringify parse ∅
           [DemoAuth.SignUp "ann" (DemoAuth.mkStorageData "co_zFirst" "secret1");
            DemoAuth.LogOut;
            DemoAuth.SignUp "bob" (DemoAuth.mkStorageData "co_zSecond" "secret2")]).
  - reflexivity.
  - repeat constructor; vm_compute; congruence.
Defined.

Lemma demo_restart_and_logout_witness :
  let stringify := λ d, DemoAuth.accountID d +:+ "/" +:+ DemoAuth.accountSecret d in
  let parse := λ s, match Invite.split "/" s with
                    | [a; b] => Some (DemoAuth.mkStorageData a b)
                    | _ => None
                    end in
  let data := DemoAuth.mkStorageData "co_zFirst" "secret1" in
  DemoAuth.createNode parse (DemoAuth.signUp stringify "ann" data ∅)
  = JS.Ok (DemoAuth.Loads data)
  ∧ DemoAuth.createNode parse
      (DemoAuth.logOut (DemoAuth.signUp stringify "ann" data ∅))
    = JS.Ok (DemoAuth.Ready ["ann"]).
Proof.
  intros stringify parse data.
  destruct (demo_restart_and_logout stringify parse ∅ "ann" data)
    as (Hload & _ & Hready & _).
  - vm_compute. reflexivity.
  - vm_compute. discriminate.
  - split; [exact Hload|]. rewrite Hready. vm_compute. reflexivity.
Defined.

(** ** The passphrase auth provider across reloads *)

Section PassphraseNodeProps.
Import Passphrase PassphraseNode.

Variables Header Node : Type.
Variable mnemonicToEntropy : string → list string → option string.
Variables sealerSecretFromSeed signerSecretFromSeed : string → string.
Variable accountHeaderForInitialAgentSecret : string → Header.
Variable idforHeader : Header → string.
Variable JSON_parse : string → option (string * string).

Local Abbreviation logIn :=
  (logIn Header Node mnemonicToEntropy sealerSecretFromSeed signerSecretFromSeed
     accountHeaderForInitialAgentSecret idforHeader).
Local Abbreviation signUp :=
  (signUp Header Node mnemonicToEntropy sealerSecretFromSeed signerSecretFromSeed
     accountHeaderForInitialAgentSecret idforHeader).
Local Abbreviation createNode := (createNode JSON_parse).

Lemma createNode_stored ls a s :
  JSON_parse (storageData a s) = Some (a, s) →
  createNode (<[localStorageKey := storageData a s]> ls) = JS.Ok (Loads a s).
Proof.
  intros Hparse. unfold PassphraseNode.createNode. rewrite lookup_insert_eq.
  change (JS.truthy (Some (storageData a s))) with true. simpl. by rewrite Hparse.
Qed.


End PassphraseNodeProps.

(** ** More on invite links *)

Section InviteMore.
Import URL Invite InviteConsume.

Variable createInvite : CoValueCore → Role → string.
Variable href : string.
Variable parses : string → bool.

Local Abbreviation parseInviteLink := (parseInviteLink parses).

Lemma split_parts sep s : Forall (λ p, occurs sep p = false) (split sep s).
Proof.
  induction s as [|c s IH]; [by repeat constructor|]. cbn [split].
  destruct (decide (c = sep)) as [->|Hne]; [by constructor|].
  destruct (split sep s) as [|part parts]; [by repeat constructor; simpl;
    rewrite bool_decide_false|].
  apply Forall_cons in IH as [Hpart Hparts]. constructor; [|done].
  simpl. by rewrite bool_decide_false, Hpart.
Qed.

Lemma parseHash_Some hash l :
  parseHash hash = Some l →
  (∃ vid secret, split "/" hash = ["#"; "invite"; vid; secret]
     ∧ l = {| valueID := vid; inviteSecret := secret; valueHint := None |}
     ∧ vid ≠ "" ∧ secret ≠ "")
  ∨ (∃ hint vid secret, split "/" hash = ["#"; "invite"; hint; vid; secret]
       ∧ l = {| valueID := vid; inviteSecret := secret; valueHint := Some hint |}
       ∧ vid ≠ "" ∧ secret ≠ "").
Proof.
  unfold parseHash. intros Hl.
  destruct (split "/" hash) as [|p0 [|p1 parts]]; [done| |].
  { cbn [lookup list_lookup] in Hl. by rewrite andb_false_r in Hl. }
  cbn [lookup list_lookup] in Hl.
  destruct (bool_decide_reflect (Some p0 = Some "#")) as [[= ->]|]; [|done].
  destruct (bool_decide_reflect (Some p1 = Some "invite")) as [[= ->]|]; [|done].
  cbn [andb] in Hl.
  destruct parts as [|p2 [|p3 [|p4 [|p5 parts]]]]; try done.
  - left. exists p2, p3. simpl in Hl.
    destruct p2; [done|]. destruct p3; [done|]. simpl in Hl.
    injection Hl as <-. done.
  - right. exists p2, p3, p4. simpl in Hl.
    destruct p3; [done|]. destruct p4; [done|]. simpl in Hl.
    injection Hl as <-. done.
Qed.

(** X14. [parseInviteLink] returns a link only for a URL whose fragment
    is exactly [#/invite/], the hint and a slash if the link has one,
    the value ID, a slash and the invite secret; the value ID and the
    invite secret it returns are never empty, and no part holds a
    slash. *)
Theorem parseInviteLink_sound (inviteURL : string) (l : InviteLink) :
  parseInviteLink inviteURL = JS.Ok (Some l) →
  URL.hash parses inviteURL = JS.Ok (fragmentOf l)
  ∧ valueID l ≠ "" ∧ inviteSecret l ≠ ""
  ∧ occurs "/" (valueID l) = false ∧ occurs "/" (inviteSecret l) = false
  ∧ (∀ h, valueHint l = Some h → occurs "/" h = false).
Proof.
  unfold Invite.parseInviteLink.
  destruct (URL.hash parses inviteURL) as [hash|e]; [|done]. intros [= Hl].
  pose proof (concat_split "/" hash) as Hjoin.
  pose proof (split_parts "/" hash) as Hparts.
  apply parseHash_Some in Hl
    as [(vid & secret & Hsplit & -> & Hv & Hs)|(hint & vid & secret & Hsplit & -> & Hv & Hs)];
    rewrite Hsplit in Hjoin, Hparts; rewrite <- Hjoin;
    unfold fragmentOf; cbn [valueHint valueID inviteSecret].
  - apply Forall_cons in Hparts as [_ [_ [H2 [H3 _]%Forall_cons]%Forall_cons]%Forall_cons].
    split_and!; done.
  - apply Forall_cons in Hparts
      as [_ [_ [H2 [H3 [H4 _]%Forall_cons]%Forall_cons]%Forall_cons]%Forall_cons].
    split_and!; try done.
    + f_equal. change (String.concat "/" ["#"; "invite"; hint; vid; secret])
        with ("#/invite/" +:+ (hint +:+ ("/" +:+ (vid +:+ "/" +:+ secret)))).
      by rewrite (append_assoc hint "/").
    + by intros h [= <-].
Qed.

Lemma occurs_dropTrailing c s : occurs c s = false → occurs c (dropTrailing s) = false.
Proof.
  induction s as [|x s IH]; [done|]. simpl.
  intros [Hx Hs]%orb_false_elim. specialize (IH Hs).
  destruct (dropTrailing s) as [|y t].
  - destruct (isC0OrSpace x); [done|]. simpl. by rewrite Hx.
  - cbn [occurs] in *. by rewrite Hx, IH.
Qed.

Lemma splitFragment_no_hash s : occurs "#" s = false → splitFragment s = (s, None).
Proof.
  induction s as [|c s IH]; [done|]. simpl.
  intros [Hc Hs]%orb_false_elim. apply bool_decide_eq_false in Hc.
  rewrite decide_False by done. by rewrite IH.
Qed.

(** A URL without [#] is no invite link. *)
Lemma parseInviteLink_no_hash url l :
  occurs "#" url = false → parseInviteLink url ≠ JS.Ok (Some l).
Proof.
  intros Hurl. unfold Invite.parseInviteLink, URL.hash, preprocess.
  rewrite splitFragment_no_hash
    by (by apply occurs_removeTabNewline, occurs_dropTrailing, occurs_dropLeading).
  by destruct (parses _).
Qed.

(** X15. When [consumeInviteLinkFromWindowLocation] settles with a
    link, it has accepted that invite once and has taken the fragment
    off the address of the page; a later call on that address accepts
    nothing and settles with no link, so a reload does not consume the
    invite again. When the address holds no invite nothing is accepted,
    and when accepting the invite fails the address is left as it is, so
    that the invite can be tried again. *)
Theorem consume_invite_once (acceptInvite : string → string → JS.outcome unit) :
  let r := consumeInviteLinkFromWindowLocation parses acceptInvite href in
  match settled r with
  | JS.Ok (Some l) =>
      accepted r = [(valueID l, inviteSecret l)]
      ∧ location r = withoutHash href
      ∧ ∀ acceptInvite',
          let r' := consumeInviteLinkFromWindowLocation parses acceptInvite'
                      (location r) in
          accepted r' = [] ∧ location r' = location r
          ∧ ∀ l', settled r' ≠ JS.Ok (Some l')
  | JS.Ok None => accepted r = [] ∧ location r = href
  | JS.Throws _ => location r = href
  end.
Proof.
  cbv zeta. unfold consumeInviteLinkFromWindowLocation.
  destruct (parseInviteLink href) as [[result|]|e] eqn:Hparse;
    cbn [settled accepted location]; [|done..].
  destruct (acceptInvite (valueID result) (inviteSecret result)) as [[]|e];
    cbn [settled accepted location]; [|done].
  split_and!; [done..|]. intros acceptInvite'.
  destruct (Invite.parseInviteLink parses (withoutHash href)) as [[l'|]|e'] eqn:Hp'.
  - by destruct (parseInviteLink_no_hash (withoutHash href) l' (occurs_withoutHash href)).
  - done.
  - done.
Qed.

End InviteMore.

Section InviteChain.
Import URL Invite InviteConsume.

Variable createInvite : CoValueCore → Role → string.
Variable href : string.

Local Abbreviation createInviteLink := (createInviteLink createInvite href).

Lemma owningCore_owned : ∀ c, OwnedBy c (owningCore c).
Proof.
  fix IH 1. intros [i [|owner| |]]; simpl; try constructor. apply IH.
Qed.

Lemma owningCore_not_owned : ∀ c owner, rulesetOf (owningCore c) ≠ ownedByGroup owner.
Proof.
  fix IH 1. intros [i [|owner'| |]] owner; simpl; [done|apply IH|done|done].
Qed.

Lemma owned_group_unique c g :
  OwnedBy c g → rulesetOf g = group → owningCore c = g.
Proof.
  induction 1 as [[i r]|i owner g Hown IH]; intros Hg.
  - simpl in Hg. by subst r.
  - simpl. by apply IH.
Qed.

(** X16. [createInviteLink] creates the invite at the group the covalue
    is owned by, however many [ownedByGroup] links lie between the two,
    and puts the secret of that invite at the end of the link: it is the
    secret of that core and of no other, cores being told apart by their
    IDs, and a covalue has at most one such group. For a covalue that no
    group owns it throws. *)
Theorem createInviteLink_at_owning_group (value : CoValue) (role : Role)
    (baseURL valueHint : option string) :
  (∀ g, OwnedBy (core value) g → rulesetOf g = group →
     createInviteLink value role baseURL valueHint
     = JS.Ok (default (withoutHash href) baseURL +:+ "#/invite/"
              +:+ (if JS.truthy valueHint then default "" valueHint +:+ "/" else "")
              +:+ id value +:+ "/" +:+ createInvite g role))
  ∧ (∀ g g', OwnedBy (core value) g → rulesetOf g = group →
       OwnedBy (core value) g' → rulesetOf g' = group → g = g')
  ∧ ((∀ g, OwnedBy (core value) g → rulesetOf g ≠ group) →
     createInviteLink value role baseURL valueHint
     = JS.Throws "Can't create invite link for object without group").
Proof.
  split_and!.
  - intros g Hown Hg. unfold Invite.createInviteLink.
    rewrite (owned_group_unique _ _ Hown Hg), Hg. done.
  - intros g g' Hown Hg Hown' Hg'.
    by rewrite <- (owned_group_unique _ _ Hown Hg), <- (owned_group_unique _ _ Hown' Hg').
  - intros Hnone. unfold Invite.createInviteLink.
    pose proof (Hnone _ (owningCore_owned (core value))) as Hg.
    pose proof (owningCore_not_owned (core value)) as Ho.
    destruct (rulesetOf (owningCore (core value))) as [|owner| |];
      [done|by destruct (Ho owner)|done|done].
Qed.

End InviteChain.


(** An instance of X14. *)
Lemma parseInviteLink_sound_witness :
  URL.hash URL.parsesHttps
    "https://example.com/app#/invite/notes/co_zValue/inviteSecret_zSecret"
  = JS.Ok "#/invite/notes/co_zValue/inviteSecret_zSecret".
Proof.
  destruct (parseInviteLink_sound URL.parsesHttps
              "https://example.com/app#/invite/notes/co_zValue/inviteSecret_zSecret"
              {| Invite.valueID := "co_zValue";
                 Invite.inviteSecret := "inviteSecret_zSecret";
                 Invite.valueHint := Some "notes" |}) as (Hhash & _).
  - vm_compute. reflexivity.
  - exact Hhash.
Defined.

(** ** More on the crypto envelope *)

Section EnvelopeMore.
Import JSON Crypto CryptoHash.

Context {P : Primitives}.

(** X17. Hashing does not depend on the insertion order of object
    keys: a value and the same value with the properties of its objects
    in another order have the same secure hash and the same short
    hash. *)
Theorem hash_order_insensitive (x y : Json) :
  WellFormed x → Reordered x y →
  secureHash x = secureHash y ∧ shortHash x = shortHash y.
Proof.
  intros Hwf Hro. unfold secureHash, shortHash.
  by rewrite (stableStringify_reordered x Hwf y Hro).
Qed.

End EnvelopeMore.

(** An instance of X17: the payload of the test suite in both orders. *)
Lemma hash_order_insensitive_witness :
  CryptoHash.secureHash (P := Crypto.demo)
    (JSON.JObj [("b", JSON.JStr "world"); ("a", JSON.JStr "hello")])
  = CryptoHash.secureHash (P := Crypto.demo)
      (JSON.JObj [("a", JSON.JStr "hello"); ("b", JSON.JStr "world")]).
Proof.
  apply (hash_order_insensitive (P := Crypto.demo)).
  - constructor; [|repeat constructor].
    apply (bool_decide_unpack _). by vm_compute.
  - apply (Crypto.ro_obj _ [("b", JSON.JStr "world"); ("a", JSON.JStr "hello")]).
    + repeat constructor.
    + apply Permutation_swap.
Defined.

(** ** More on blob ingestion *)

Section BinaryStreamMore.
Import BinaryStream.

(** How many chunks of at most [size] bytes [n] bytes take. *)
Lemma chunk_count_step n size :
  (0 < size)%nat → (0 < n)%nat →
  ((n + size - 1) / size = S ((n - size + size - 1) / size))%nat.
Proof.
  intros Hsize Hn. destruct (decide (n ≤ size)%nat) as [Hle|Hgt].
  - replace (n - size + size - 1)%nat with (size - 1)%nat by lia.
    rewrite (Nat.div_small (size - 1)) by lia.
    symmetry. apply (Nat.div_unique _ _ _ (n - 1)); lia.
  - replace (n + size - 1)%nat with ((n - size + size - 1) + 1 * size)%nat by lia.
    rewrite Nat.div_add by lia. lia.
Qed.

Lemma chunkLoop_count chunkSize data fuel idx :
  (0 < chunkSize)%nat → (length data - idx ≤ fuel)%nat →
  ∃ chunks,
    chunkLoop fuel chunkSize data idx = Some (pushBinaryStreamChunk <$> chunks)
    ∧ length chunks = ((length data - idx + chunkSize - 1) / chunkSize)%nat
    ∧ ∀ i c, chunks !! i = Some c → (S i < length chunks)%nat → length c = chunkSize.
Proof.
  intros Hpos. revert idx. induction fuel as [|fuel IH]; intros idx Hfuel.
  - exists []. simpl. rewrite decide_False by lia. split_and!; [done| |done].
    replace (length data - idx + chunkSize - 1)%nat with (chunkSize - 1)%nat by lia.
    by rewrite Nat.div_small by lia.
  - simpl. destruct (decide (idx < length data)%nat) as [Hlt|Hge].
    + destruct (IH (idx + chunkSize)%nat) as (chunks & -> & Hlen & Hfull); [lia|].
      exists (slice data idx (idx + chunkSize) :: chunks). split_and!; [done| |].
      * simpl. rewrite Hlen, (chunk_count_step (length data - idx)) by lia.
        do 3 f_equal. lia.
      * intros [|i] c; simpl.
        -- intros [= <-] Hmore. rewrite slice_window, length_take, length_drop.
           assert (0 < (length data - (idx + chunkSize) + chunkSize - 1) / chunkSize)%nat
             as Hrest by lia.
           destruct (decide (length data - (idx + chunkSize) = 0)%nat) as [Hz|Hnz]; [|lia].
           rewrite Hz in Hrest. simpl in Hrest.
           rewrite Nat.div_small in Hrest by lia. lia.
        -- intros Hc Hmore. apply (Hfull i c Hc). lia.
    + exists []. split_and!; [done| |done].
      replace (length data - idx + chunkSize - 1)%nat with (chunkSize - 1)%nat by lia.
      by rewrite Nat.div_small by lia.
Qed.

(** X19. [createBinaryStreamFromBlob] pushes as few chunks as the size
    of the blob allows: the size divided by [MAX_RECOMMENDED_TX_SIZE],
    rounded up, every chunk but the last one being full; an empty blob
    gives a stream that is started and ended with no chunk in
    between. *)
Theorem blob_chunk_count (blob : Blob) :
  ∃ chunks,
    createBinaryStreamFromBlob blob
    = Some (startBinaryStream {| mimeType := blobType blob;
                                 totalSizeBytes := blobSize blob;
                                 startFileName := fileName blob |}
            :: (pushBinaryStreamChunk <$> chunks) ++ [endBinaryStream])
    ∧ length chunks
      = ((blobSize blob + MAX_RECOMMENDED_TX_SIZE - 1) / MAX_RECOMMENDED_TX_SIZE)%nat
    ∧ (∀ i c, chunks !! i = Some c → (S i < length chunks)%nat →
         length c = MAX_RECOMMENDED_TX_SIZE)
    ∧ (blobData blob = [] → chunks = []).
Proof.
  assert (0 < MAX_RECOMMENDED_TX_SIZE)%nat as Hmax
    by (unfold MAX_RECOMMENDED_TX_SIZE; lia).
  unfold createBinaryStreamFromBlob, onload, blobSize.
  destruct (chunkLoop_count MAX_RECOMMENDED_TX_SIZE (blobData blob)
              (length (blobData blob)) 0) as (chunks & -> & Hlen & Hfull);
    [done|lia|].
  exists chunks. rewrite Nat.sub_0_r in Hlen. split_and!; try done.
  intros Hempty. rewrite Hempty in Hlen. cbn [length] in Hlen.
  rewrite Nat.add_0_l, Nat.div_small in Hlen by lia.
  by destruct chunks.
Qed.

End BinaryStreamMore.

(** ** More on the reconnection backoff *)

Section ReconnectMore.
Import Reconnect.

Lemma step_timeout_range s e :
  0 ≤ initialReconnectionTimeout s ≤ 30000 →
  0 ≤ currentReconnectionTimeout s ≤ 30000 →
  0 ≤ currentReconnectionTimeout (step s e) ≤ 30000
  ∧ (e ≠ Online → currentReconnectionTimeout s ≤ currentReconnectionTimeout (step s e)).
Proof.
  intros Hi Hc. destruct e as [|connected|]; simpl; [|  |done].
  - split; [|done]. destruct (shouldTryToReconnect s); simpl; lia.
  - unfold loopBody, nextTimeout.
    destruct (shouldTryToReconnect s), connected; simpl; lia.
Qed.

Lemma run_timeout_range es s :
  0 ≤ initialReconnectionTimeout s ≤ 30000 →
  0 ≤ currentReconnectionTimeout s ≤ 30000 →
  0 ≤ currentReconnectionTimeout (run s es) ≤ 30000.
Proof.
  unfold run. revert s. induction es as [|e es IH]; intros s Hi Hc; [done|].
  simpl. apply IH; [by rewrite step_initial|]. by apply step_timeout_range.
Qed.

(** X20. For an initial timeout between 0 and 30000 ms, the current
    timeout never leaves that range, and only an [online] event makes it
    smaller: neither a pass that finds the peer connected nor a
    reconnection attempt lowers it, so after an outage the next
    disconnect starts from the delay the last one reached. *)
Theorem backoff_never_relaxes (t : Z) (es1 es2 : list event) :
  0 ≤ t ≤ 30000 → Online ∉ es2 →
  let s := run (createBrowserNode (Some t)) es1 in
  currentReconnectionTimeout s ≤ currentReconnectionTimeout (run s es2) ≤ 30000.
Proof.
  intros Ht Hno. cbv zeta.
  assert (0 ≤ initialReconnectionTimeout (run (createBrowserNode (Some t)) es1) ≤ 30000
          ∧ 0 ≤ currentReconnectionTimeout (run (createBrowserNode (Some t)) es1) ≤ 30000)
    as [Hi Hc].
  { split; [by rewrite run_initial|]. by apply run_timeout_range. }
  revert Hi Hc. generalize (run (createBrowserNode (Some t)) es1). intros s Hi Hc.
  split; [|by apply run_timeout_range].
  unfold run. revert s Hi Hc. induction es2 as [|e es IH]; intros s Hi Hc; [simpl; lia|].
  apply not_elem_of_cons in Hno as [He Hno]. simpl.
  destruct (step_timeout_range s e Hi Hc) as [Hc' Hle].
  etrans; [apply Hle; congruence|]. apply IH; [done|by rewrite step_initial|done].
Qed.

End ReconnectMore.

(** An instance of X20: three failed attempts, a reconnect, another
    failure. *)
Lemma backoff_never_relaxes_witness :
  let s := Reconnect.run (Reconnect.createBrowserNode (Some 500)) (Reconnect.failures 3) in
  Reconnect.currentReconnectionTimeout s
  ≤ Reconnect.currentReconnectionTimeout
      (Reconnect.run s [Reconnect.Iteration true; Reconnect.Iteration false])
  ≤ 30000.
Proof.
  apply (backoff_never_relaxes 500 (Reconnect.failures 3)
           [Reconnect.Iteration true; Reconnect.Iteration false]).
  - lia.
  - intros Hin. apply list_elem_of_In in Hin. simpl in Hin.
    destruct Hin as [H|[H|[]]]; discriminate.
Defined.

(** ** Instances of X1, X16 and X19 *)

(** After a known message at 0 and a content message at 1000 the one
    pending timer is the second one set, due at 3500, and it is the one
    [pingTimeout] holds. *)
Lemma single_pending_timer_witness :
  let parse := λ data, Some (JSON.JObj [("type", JSON.JStr data)]) in
  let s := WsStream.run parse WsStream.start
             (WsStream.messages [(0, "known"); (1000, "content")]) in
  ∃ h, WsStream.timers s !! h = Some 3500 ∧ WsStream.pingTimeout s = Some h.
Proof.
  intros parse s. exists 2%nat.
  assert (WsStream.timers s !! 2%nat = Some 3500) as Hpending
    by (vm_compute; reflexivity).
  split; [exact Hpending|].
  destruct (single_pending_timer parse
              (WsStream.messages [(0, "known"); (1000, "content")])
              2%nat 2%nat 3500 3500 Hpending Hpending) as (_ & _ & Hheld).
  exact Hheld.
Defined.

(** A covalue two [ownedByGroup] links below its group gets the invite
    of that very group; an account, which no group owns, gets none. *)
Lemma createInviteLink_at_owning_group_witness :
  let createInvite := λ (g : Invite.CoValueCore) (_ : Invite.Role),
                        "inviteSecret_zOf_" +:+ Invite.idOf g in
  let href := "https://example.com/app#/old" in
  let theGroup := Invite.mkCore "co_zGroup" Invite.group in
  let value := Invite.mkCoValue "co_zValue"
                 (Invite.mkCore "co_zValue"
                    (Invite.ownedByGroup
                       (Invite.mkCore "co_zList" (Invite.ownedByGroup theGroup)))) in
  let acct := Invite.mkCoValue "co_zAccount"
                (Invite.mkCore "co_zAccount" Invite.account) in
  Invite.createInviteLink createInvite href value Invite.admin None (Some "todo")
  = JS.Ok "https://example.com/app#/invite/todo/co_zValue/inviteSecret_zOf_co_zGroup"
  ∧ Invite.createInviteLink createInvite href acct Invite.admin None None
    = JS.Throws "Can't create invite link for object without group".
Proof.
  intros createInvite href theGroup value acct. split.
  - destruct (createInviteLink_at_owning_group createInvite href value
                Invite.admin None (Some "todo")) as [Hgroup _].
    pose proof (Hgroup theGroup) as Hlink.
    rewrite Hlink; [vm_compute; reflexivity|repeat constructor|reflexivity].
  - destruct (createInviteLink_at_owning_group createInvite href acct
                Invite.admin None None) as [_ Hnone].
    apply Hnone. intros g Hown. inversion Hown. discriminate.
Defined.

(** A blob one byte longer than a full chunk is pushed as a full chunk
    followed by one more. *)
Lemma blob_chunk_count_witness :
  let blob := BinaryStream.mkBlob "image/png"
                (replicate (S BinaryStream.MAX_RECOMMENDED_TX_SIZE) Byte.x00) None in
  ∃ c c',
    BinaryStream.createBinaryStreamFromBlob blob
    = Some [BinaryStream.startBinaryStream
              {| BinaryStream.mimeType := "image/png";
                 BinaryStream.totalSizeBytes := BinaryStream.blobSize blob;
                 BinaryStream.startFileName := None |};
            BinaryStream.pushBinaryStreamChunk c;
            BinaryStream.pushBinaryStreamChunk c';
            BinaryStream.endBinaryStream]
    ∧ length c = BinaryStream.MAX_RECOMMENDED_TX_SIZE.
Proof.
  intros blob.
  destruct (blob_chunk_count blob) as (chunks & Hcalls & Hlen & Hfull & _).
  assert (length chunks = 2%nat) as Htwo by (rewrite Hlen; vm_compute; reflexivity).
  destruct chunks as [|c [|c' [|? ?]]]; try discriminate Htwo.
  exists c, c'. split; [exact Hcalls|].
  apply (Hfull 0%nat c); [reflexivity|simpl; lia].
Defined.
